(** * E-paper photo frame server: palette quantisation, Floyd-Steinberg
      dithering, wire encoding and the round-robin image registry.

    Shallow embedding of [app.py].  Pixel channels are numpy [int16]
    values, modelled as [Z] with the wrap-around written out; the pixel
    buffer is a list of rows read and updated by index; the three module
    globals of the Flask application form an explicit state record. *)

From Stdlib Require Import ZArith Lia String Ascii DecimalString.
From Stdlib Require DecimalNat.
From stdpp Require Import base tactics option list numbers strings.

Local Open Scope string_scope.
Local Open Scope list_scope.
Local Open Scope Z_scope.

(** * Part I: the program *)

(** ** Palette *)

Module Palette.

(** An RGB triple.  In the dithering buffer the channels are [int16]. *)
Definition pixel : Type := Z * Z * Z.

Definition red (p : pixel) : Z := p.1.1.
Definition green (p : pixel) : Z := p.1.2.
Definition blue (p : pixel) : Z := p.2.

(** [color_palette]: a Python dict, iterated in insertion order. *)
Definition color_palette : list (pixel * Z) :=
  [ ((255, 255, 255), 0xFF)   (* White *)
  ; ((255, 255, 0),   0xFC)   (* Yellow *)
  ; ((255, 165, 0),   0xEC)   (* Orange *)
  ; ((255, 0, 0),     0xE0)   (* Red *)
  ; ((0, 128, 0),     0x35)   (* Green *)
  ; ((0, 0, 255),     0x2B)   (* Blue *)
  ; ((0, 0, 0),       0x00)   (* Black *)
  ].

(** Iterating over a dict yields its keys. *)
Definition palette_keys : list pixel := map fst color_palette.

Definition White : pixel := (255, 255, 255).
Definition Yellow : pixel := (255, 255, 0).
Definition Orange : pixel := (255, 165, 0).
Definition Black : pixel := (0, 0, 0).

(** [sum((int(rgb[i]) - int(palette_rgb[i])) ** 2 for i in range(3))],
    computed on unbounded Python integers. *)
Definition sq_dist (rgb palette_rgb : pixel) : Z :=
  0 + (red rgb - red palette_rgb) ^ 2
    + (green rgb - green palette_rgb) ^ 2
    + (blue rgb - blue palette_rgb) ^ 2.

(** [dist < min_dist] where [min_dist] starts as [float('inf')],
    written [None]. *)
Definition lt_min (dist : Z) (min_dist : option Z) : bool :=
  match min_dist with
  | None => true
  | Some m => dist <? m
  end.

(** One iteration of the [for palette_rgb in color_palette] loop; the
    loop state is [(min_dist, closest_color)]. *)
Definition closest_step (rgb : pixel) (st : option Z * pixel)
    (palette_rgb : pixel) : option Z * pixel :=
  let dist := sq_dist rgb palette_rgb in
  if lt_min dist st.1 then (Some dist, palette_rgb) else st.

Definition closest_loop (rgb : pixel) (keys : list pixel) : option Z * pixel :=
  fold_left (closest_step rgb) keys (None, (255, 255, 255)).

Definition closest_palette_color (rgb : pixel) : pixel :=
  (closest_loop rgb palette_keys).2.

(** [color_palette.get(key, default)] *)
Fixpoint dict_get (d : list (pixel * Z)) (key : pixel) (default : Z) : Z :=
  match d with
  | [] => default
  | (k, v) :: d' => if decide (k = key) then v else dict_get d' key default
  end.

End Palette.

Import Palette.

(** ** Floyd-Steinberg dithering *)

Module Dither.

(** The [int16] buffer [pixels], shape (height, width, 3): a list of rows. *)
Abbreviation raster := (list (list pixel)).

(** A PIL image in mode RGB: its size and its pixel rows. *)
Record image : Type := Image { width : nat; height : nat; rows : raster }.

(** The shape [np.array(image)] has: [height] rows of [width] pixels. *)
Definition wf_raster (W H : nat) (px : raster) : Prop :=
  length px = H ∧ Forall (λ row, length row = W) px.

Definition wf_image (im : image) : Prop :=
  wf_raster (width im) (height im) (rows im).

(** Two's-complement wrap-around of [int16] arithmetic. *)
Definition wrap16 (v : Z) : Z := (v + 32768) `mod` 65536 - 32768.

(** [pixels[y, x]] *)
Definition get_px (px : raster) (y x : nat) : option pixel :=
  px !! y ≫= λ row, row !! x.

(** In-place update of [pixels[y, x]]. *)
Definition alter_px (f : pixel → pixel) (y x : nat) (px : raster) : raster :=
  alter (alter f x) y px.

(** [np.array(old_pixel) - np.array(new_pixel)]: the difference is taken
    at 64 bits, so it does not wrap. *)
Definition pixel_sub (a b : pixel) : pixel :=
  (red a - red b, green a - green b, blue a - blue b).

(** [(quant_error * k / 16).astype(np.int16)]: a true division followed by
    a cast that truncates toward zero.  The quotient is exact in double
    precision, and lies within [int16] because the error does. *)
Definition weighted (quant_error : pixel) (k : Z) : pixel :=
  (red quant_error * k ÷ 16, green quant_error * k ÷ 16, blue quant_error * k ÷ 16).

(** [pixels[..][:3] += d] on the [int16] buffer. *)
Definition add_int16 (d : pixel) (p : pixel) : pixel :=
  (wrap16 (red p + red d), wrap16 (green p + green d), wrap16 (blue p + blue d)).

(** The quantisation error computed when (x, y) is visited. *)
Definition quant_error_at (px : raster) (y x : nat) : option pixel :=
  old_pixel ← get_px px y x;
  Some (pixel_sub old_pixel (closest_palette_color old_pixel)).

(** Body of the inner loop.  On a buffer of the image's shape the read at
    (x, y) always succeeds. *)
Definition dither_pixel (W H : nat) (px : raster) (y x : nat) : raster :=
  match get_px px y x with
  | None => px
  | Some old_pixel =>
      let new_pixel := closest_palette_color old_pixel in
      let px := alter_px (λ _, new_pixel) y x px in
      let quant_error := pixel_sub old_pixel new_pixel in
      let px := if bool_decide (x + 1 < W)%nat
                then alter_px (add_int16 (weighted quant_error 7)) y (x + 1) px
                else px in
      let px := if bool_decide (1 ≤ x ∧ y + 1 < H)%nat
                then alter_px (add_int16 (weighted quant_error 3)) (y + 1) (x - 1) px
                else px in
      let px := if bool_decide (y + 1 < H)%nat
                then alter_px (add_int16 (weighted quant_error 5)) (y + 1) x px
                else px in
      let px := if bool_decide (x + 1 < W ∧ y + 1 < H)%nat
                then alter_px (add_int16 (weighted quant_error 1)) (y + 1) (x + 1) px
                else px in
      px
  end.

(** [for x in range(image.width)] *)
Definition dither_row (W H : nat) (px : raster) (y : nat) : raster :=
  fold_left (λ px x, dither_pixel W H px y x) (seq 0 W) px.

(** [for y in range(image.height)] *)
Definition dither_loop (W H : nat) (px : raster) : raster :=
  fold_left (dither_row W H) (seq 0 H) px.

(** [np.clip(pixels, 0, 255)] *)
Definition clip (v : Z) : Z := Z.min 255 (Z.max 0 v).

(** [.astype(np.uint8)] *)
Definition astype_uint8 (v : Z) : Z := v `mod` 256.

Definition clip_pixel (p : pixel) : pixel :=
  (astype_uint8 (clip (red p)), astype_uint8 (clip (green p)), astype_uint8 (clip (blue p))).

Definition apply_floyd_steinberg_dithering (im : image) : image :=
  let pixels := dither_loop (width im) (height im) (rows im) in
  Image (width im) (height im) (map (map clip_pixel) pixels).

(** Positions in the order the loops visit them, and the quantisation
    errors met along the pass. *)
Definition scan_order (W H : nat) : list (nat * nat) :=
  y ← seq 0 H; x ← seq 0 W; [(y, x)].

Fixpoint quant_errors (W H : nat) (px : raster) (todo : list (nat * nat)) : list pixel :=
  match todo with
  | [] => []
  | (y, x) :: todo' =>
      default (0, 0, 0) (quant_error_at px y x)
        :: quant_errors W H (dither_pixel W H px y x) todo'
  end.

(** (y0, x0) is visited strictly before (y, x). *)
Definition scan_before (y0 x0 y x : nat) : Prop :=
  (y0 < y ∨ (y0 = y ∧ x0 < x))%nat.

End Dither.

Import Dither.

Definition solid (W H : nat) (p : pixel) : image :=
  Image W H (replicate H (replicate W p)).

(** ** Exceptions *)

(** A computation that returns a value or raises a Python exception with
    a message. *)
Inductive exc (A : Type) : Type :=
  | Ok (a : A)
  | Raise (msg : string).
Arguments Ok {A} a.
Arguments Raise {A} msg.

Definition exc_bind {A B} (m : exc A) (k : A → exc B) : exc B :=
  match m with
  | Ok a => k a
  | Raise msg => Raise msg
  end.

Notation "x <~ m ; k" := (exc_bind m (λ x, k))
  (at level 100, m at next level, right associativity).

(** A [for] loop whose body may raise: the first exception ends the loop. *)
Fixpoint for_each {A S : Type} (xs : list A) (body : S → A → exc S) (s : S) : exc S :=
  match xs with
  | [] => Ok s
  | x :: xs' => s' <~ body s x; for_each xs' body s'
  end.

(** ** Wire encoding *)

Module Encoder.

Definition hex_digit (d : Z) : ascii :=
  nth (Z.to_nat d) (list_ascii_of_string "0123456789ABCDEF") "0"%char.

(** Upper-case hexadecimal digits of a non-negative integer, most
    significant first. *)
Fixpoint hex_upper_aux (fuel : nat) (n : Z) (acc : string) : string :=
  match fuel with
  | O => acc
  | S fuel' =>
      let acc' := String (hex_digit (n `mod` 16)) acc in
      if n `div` 16 =? 0 then acc' else hex_upper_aux fuel' (n `div` 16) acc'
  end.

Definition hex_upper (n : Z) : string :=
  hex_upper_aux (S (Z.to_nat (Z.log2 n))) n "".

(** [f"{n:02X}"] for [n >= 0]: zero-padded on the left to two digits. *)
Definition format_02X (n : Z) : string :=
  let s := hex_upper n in
  if (String.length s <? 2)%nat then "0" +:+ s else s.

(** [f"0x{color_code:02X}"] with
    [color_code = color_palette.get(tuple(rgb), 0xFF)]. *)
Definition color_code (rgb : pixel) : Z := dict_get color_palette rgb 0xFF.

Definition pixel_token (rgb : pixel) : string := "0x" +:+ format_02X (color_code rgb).

(** [image.getpixel((x, y))]; raises [IndexError] outside the image. *)
Definition getpixel (im : image) (x y : nat) : exc pixel :=
  match get_px (rows im) y x with
  | Some rgb => Ok rgb
  | None => Raise "image index out of range"
  end.

(** The two loops that fill [data_array], for a [W] by [H] scan. *)
Definition encode_row (W : nat) (im : image) (data_array : list string) (y : nat)
    : exc (list string) :=
  for_each (seq 0 W)
    (λ data_array x, rgb <~ getpixel im x y; Ok (data_array ++ [pixel_token rgb]))
    data_array.

Definition encode_pixels (W H : nat) (im : image) : exc (list string) :=
  for_each (seq 0 H) (encode_row W im) [].

(** [", ".join(data_array)] *)
Definition join (sep : string) (l : list string) : string := String.concat sep l.

Definition is_upper_hex (c : ascii) : Prop :=
  c ∈ list_ascii_of_string "0123456789ABCDEF".

(** A token [0xHH] with two upper-case hexadecimal digits. *)
Definition is_token (t : string) : Prop :=
  ∃ h1 h2, is_upper_hex h1 ∧ is_upper_hex h2
           ∧ t = String "0" (String "x" (String h1 (String h2 ""))).

End Encoder.

Import Encoder.

(** ** Image pipeline *)

Section Pipeline.
(** The image library is outside the program: [decode_image] stands for
    [Image.open(BytesIO(base64.b64decode(image_data)))] and [resize_rgb]
    for [image.resize((600, 448)).convert("RGB")].  Either may raise. *)
Variable decode_image : string → exc image.
Variable resize_rgb : image → exc image.

(** The body of the [try] block of [process_image]. *)
Definition process_image_body (image_data : string) : exc string :=
  im <~ decode_image image_data;
  im <~ resize_rgb im;
  let dithered_image := apply_floyd_steinberg_dithering im in
  data_array <~ encode_pixels 600 448 dithered_image;
  Ok (join ", " data_array).

(** [except Exception: return None] *)
Definition process_image (image_data : string) : option string :=
  match process_image_body image_data with
  | Ok s => Some s
  | Raise _ => None
  end.

(** Some step of the pipeline raises on [image_data]. *)
Definition step_raises (image_data : string) (msg : string) : Prop :=
  decode_image image_data = Raise msg
  ∨ (∃ im, decode_image image_data = Ok im ∧ resize_rgb im = Raise msg)
  ∨ (∃ im im', decode_image image_data = Ok im ∧ resize_rgb im = Ok im'
       ∧ encode_pixels 600 448 (apply_floyd_steinberg_dithering im') = Raise msg).
End Pipeline.

(** ** The image registry *)

Module Registry.

(** The dict stored for an upload. *)
Record image_record : Type :=
  ImageRecord { data : string; timestamp : string; name : string }.

#[global] Instance image_record_eq_dec : EqDecision image_record.
Proof. solve_decision. Defined.

(** A dict object on the heap: its identity and its content.  Each
    evaluation of the dict display in [upload_image] makes a new object. *)
Record entry : Type := Entry { oid : nat; fields : image_record }.

(** The module globals, and the allocation counter behind [oid]. *)
Record state : Type := State {
  processed_images : list entry;
  sent_images : list entry;
  current_image_index : nat;
  next_oid : nat
}.

Definition initial : state := State [] [] 0 0.

Inductive response : Type :=
  | JsonError (error : string) (status_code : nat)
  | JsonUploaded (total_images : nat)
  | TextPlain (body : string)
  | JsonStatus (total_images sent_images current_index : nat)
  | JsonCleared.

(** [x in l] on a Python list: some element is [x] itself or compares
    equal to it; two dicts compare equal when their items do. *)
Definition py_in (x : entry) (l : list entry) : bool :=
  existsb (λ y, (oid y =? oid x)%nat || bool_decide (fields y = fields x)) l.

(** The [processed_images.append({...})] of [upload_image]. *)
Definition store (st : state) (processed_data now name : string) : state :=
  State (processed_images st ++ [Entry (next_oid st) (ImageRecord processed_data now name)])
        (sent_images st)
        (current_image_index st)
        (S (next_oid st)).

Definition get_img_data (st : state) : response * state :=
  match processed_images st with
  | [] => (JsonError "No images available" 404, st)
  | _ :: _ =>
      let len := length (processed_images st) in
      match processed_images st !! (current_image_index st `mod` len)%nat with
      | None => (JsonError "list index out of range" 500, st)
      | Some image =>
          let index := ((current_image_index st + 1) `mod` len)%nat in
          let sent := if py_in image (sent_images st)
                      then sent_images st
                      else sent_images st ++ [image] in
          (TextPlain (data (fields image)),
           State (processed_images st) sent index (next_oid st))
      end
  end.

Definition status (st : state) : response * state :=
  (JsonStatus (length (processed_images st)) (length (sent_images st))
              (current_image_index st), st).

Definition clear_images (st : state) : response * state :=
  (JsonCleared, State [] [] 0 (next_oid st)).

(** The JSON body of an upload request. *)
Record upload_json : Type :=
  UploadJson { req_image : option string; req_name : option string }.

(** [f'image_{n}'] *)
Definition default_name (n : nat) : string :=
  "image_" +:+ NilEmpty.string_of_uint (Nat.to_uint n).

Section Upload.
Variable decode_image : string → exc image.
Variable resize_rgb : image → exc image.

(** [request_json] is [None] when [request.get_json()] returns [None];
    [now] is [datetime.now().isoformat()]. *)
Definition upload_image (st : state) (request_json : option upload_json)
    (now : string) : response * state :=
  match request_json with
  | None =>
      (JsonError "Upload failed: argument of type 'NoneType' is not iterable" 500, st)
  | Some json =>
      match req_image json with
      | None => (JsonError "No image data provided" 400, st)
      | Some image_data =>
          match process_image decode_image resize_rgb image_data with
          | Some (String c s as processed_data) =>
              let st' := store st processed_data now
                           (default (default_name (length (processed_images st) + 1))
                                    (req_name json)) in
              (JsonUploaded (length (processed_images st')), st')
          | Some EmptyString | None => (JsonError "Failed to process image" 500, st)
          end
      end
  end.

(** A request to the server. *)
Inductive request : Type :=
  | PostUpload (request_json : option upload_json) (now : string)
  | GetImgData
  | GetStatus
  | PostClearImages.

Definition handle (st : state) (r : request) : response * state :=
  match r with
  | PostUpload request_json now => upload_image st request_json now
  | GetImgData => get_img_data st
  | GetStatus => status st
  | PostClearImages => clear_images st
  end.

(** The state after a sequence of requests. *)
Definition run (st : state) (rs : list request) : state :=
  fold_left (λ st r, (handle st r).2) rs st.
End Upload.

(** The state after [n] calls of [get_img_data]. *)
Definition polls (n : nat) (st : state) : state :=
  Nat.iter n (λ st, (get_img_data st).2) st.

(** The registry after a clear, where [k] objects were allocated so far. *)
Definition cleared (k : nat) : state := State [] [] 0 k.

(** Cursor within the sequence, and at 0 when the sequence is empty. *)
Definition cursor_inv (st : state) : Prop :=
  (0 < length (processed_images st) →
     current_image_index st < length (processed_images st))%nat
  ∧ (processed_images st = [] → current_image_index st = 0%nat).

End Registry.

Import Registry.

(** ** Sequences of requests and their responses *)

Section Serve.
Variable decode_image : string → exc image.
Variable resize_rgb : image → exc image.

(** The responses the server gives to a sequence of requests. *)
Fixpoint responses (st : state) (rs : list request) : list response :=
  match rs with
  | [] => []
  | r :: rs' =>
      (handle decode_image resize_rgb st r).1
        :: responses (handle decode_image resize_rgb st r).2 rs'
  end.
End Serve.

(** The same registry with every object allocated [k] steps later. *)
Definition shift_entry (k : nat) (e : entry) : entry :=
  Entry (oid e + k) (fields e).

Definition shift_state (k : nat) (st : state) : state :=
  State (shift_entry k <$> processed_images st)
        (shift_entry k <$> sent_images st)
        (current_image_index st)
        (next_oid st + k).

(** What the allocation of dict objects guarantees in every state the
    server reaches: stored entries are distinct objects allocated so far,
    and the delivered list holds stored entries, none twice. *)
Definition heap_inv (st : state) : Prop :=
  NoDup (oid <$> processed_images st)
  ∧ (∀ e, e ∈ processed_images st → (oid e < next_oid st)%nat)
  ∧ (∀ e, e ∈ sent_images st → e ∈ processed_images st)
  ∧ (∀ i j a b, sent_images st !! i = Some a → sent_images st !! j = Some b →
       fields a = fields b → i = j).

(** ** The wake-up schedule *)

Module Wakeup.

(** A naive [datetime]: the day number of its date ([date.toordinal()],
    1 for 0001-01-01) and the microseconds since midnight. *)
Record datetime : Type := DateTime { ordinal : Z; micros : Z }.

(** [date.max.toordinal()], the day 9999-12-31. *)
Definition max_ordinal : Z := 3652059.

Definition valid_datetime (now : datetime) : Prop :=
  1 ≤ ordinal now ≤ max_ordinal ∧ 0 ≤ micros now < 86400 * 1000000.

(** [time(8, 0)] and [time(20, 0)], in microseconds since midnight. *)
Definition morning_time : Z := 8 * 3600 * 1000000.
Definition evening_time : Z := 20 * 3600 * 1000000.

(** [wakeup_interval], given the reading [now] of the clock.  The
    difference [next_morning - now] is a whole number of microseconds
    below 2^53, so [total_seconds()] is its correctly rounded quotient by
    10^6 and [int] of that is the truncated quotient.  Adding a day to the
    last representable date raises [OverflowError]. *)
Definition wakeup_interval (now : datetime) : exc Z :=
  let current_time := micros now in
  if bool_decide (morning_time ≤ current_time < evening_time) then Ok 3600
  else if bool_decide (ordinal now + 1 ≤ max_ordinal) then
    let next_morning := DateTime (ordinal now + 1) morning_time in
    let delta := (ordinal next_morning - ordinal now) * (86400 * 1000000)
                 + (micros next_morning - micros now) in
    Ok (delta ÷ 1000000)
  else Raise "date value out of range".

End Wakeup.

Import Wakeup.

(** ** Album ids from share URLs *)

Module AlbumUrl.

(** [sub in s] on strings: [sub] occurs somewhere in [s]. *)
Fixpoint contains (sub s : string) : bool :=
  String.prefix sub s
  || match s with
     | "" => false
     | String _ s' => contains sub s'
     end.

(** [s.split(sep)] for a non-empty [sep]: the pieces between the
    occurrences of [sep] found from left to right, an occurrence starting
    only after the end of the one before.  [skip] counts the characters of
    the occurrence just found that are still to be passed over. *)
Fixpoint split_go (sep : string) (skip : nat) (s : string) : list string :=
  match s with
  | "" => [""]
  | String c s' =>
      match skip with
      | S k => split_go sep k s'
      | O =>
          if String.prefix sep s
          then "" :: split_go sep (String.length sep - 1) s'
          else match split_go sep 0 s' with
               | piece :: pieces => String c piece :: pieces
               | [] => [String c ""]
               end
      end
  end.

Definition split (sep s : string) : list string := split_go sep 0 s.

Section AlbumId.
(** [requests.get(share_url, allow_redirects=True).url]: the URL reached
    after the redirects, or an exception. *)
Variable follow_redirects : string → exc string.

Definition get_album_id_from_url (share_url : string) : option string :=
  match follow_redirects share_url with
  | Raise _ => None
  | Ok final_url =>
      if contains "albums/" final_url
      then
        let after := default "" (last (split "albums/" final_url)) in
        Some (default "" (head (split "?" after)))
      else None
  end.
End AlbumId.

End AlbumUrl.

Import AlbumUrl.

(** ** Google Photos album sync *)

Module GooglePhotos.

(** The attributes of a [GooglePhotosSync] object.  [os.getenv] gives
    [None] for a variable that is not set.  A [datetime] is counted in
    microseconds from 0001-01-01 00:00. *)
Record sync : Type := Sync {
  client_id : option string;
  client_secret : option string;
  refresh_token : option string;
  album_id : option string;
  access_token : option string;
  token_expires : option Z
}.

(** [GooglePhotosSync()] in an environment [getenv]. *)
Definition init (getenv : string → option string) : sync :=
  Sync (getenv "GOOGLE_CLIENT_ID") (getenv "GOOGLE_CLIENT_SECRET")
       (getenv "GOOGLE_REFRESH_TOKEN") (getenv "GOOGLE_ALBUM_ID") None None.

(** Truth value of [None] or a string: false for [None] and for [""]. *)
Definition truthy (s : option string) : bool :=
  match s with
  | Some (String _ _) => true
  | _ => false
  end.

(** One past [datetime.max], 9999-12-31 23:59:59.999999. *)
Definition datetime_end : Z := 3652059 * 86400 * 1000000.

(** The JSON object of a token response: a string under [access_token]
    and an integer under [expires_in], each possibly absent. *)
Record token_data : Type :=
  TokenData { td_access_token : option string; td_expires_in : option Z }.

(** A media item of the album listing. [mediaMetadata] is absent, or an
    object with or without [creationTime]. *)
Record photo_item : Type := PhotoItem {
  baseUrl : option string;
  item_filename : option string;
  mediaMetadata : option (option string);
  item_id : option string
}.

(** The dict [download_photo] returns. *)
Record downloaded_photo : Type := Downloaded {
  base64 : string;
  filename : string;
  creation_time : string;
  id : string
}.

(** The dict [sync_album_photos] appends. *)
Record synced_photo : Type := Synced {
  sp_data : string;
  sp_timestamp : string;
  sp_name : string;
  sp_google_id : string;
  sp_creation_time : string
}.

Section Sync.
(** The network and the libraries are outside the program.
    [post_token client_id client_secret refresh_token] stands for
    [requests.post(token_url, data=data).json()];
    [post_search access_token album_id page_size] for the search request,
    giving the status code and the outcome of [response.json()] read for
    [mediaItems]; [http_get url] gives the status code and the content;
    [b64encode] is [base64.b64encode(..).decode('utf-8')].  Each request
    may raise. *)
Variable post_token : option string → option string → option string → exc token_data.
Variable post_search : string → string → Z → exc (Z * exc (option (list photo_item))).
Variable http_get : string → exc (Z * string).
Variable b64encode : string → string.

(** [get_access_token]; [now] and [now'] are the readings of the clock
    at the test of the cached token and at the computation of the new
    expiry.  An expiry outside the range of [datetime] raises
    [OverflowError], caught by the handler after [access_token] was set. *)
Definition get_access_token (self : sync) (now now' : Z) : option string * sync :=
  if truthy (access_token self)
     && match token_expires self with
        | Some expires => bool_decide (now < expires)
        | None => false
        end
  then (access_token self, self)
  else if negb (truthy (refresh_token self)) then (None, self)
  else
    match post_token (client_id self) (client_secret self) (refresh_token self) with
    | Raise _ => (None, self)
    | Ok data =>
        match td_access_token data with
        | None => (None, self)
        | Some token =>
            let self1 := Sync (client_id self) (client_secret self)
                              (refresh_token self) (album_id self)
                              (Some token) (token_expires self) in
            let expires_in := default 3600 (td_expires_in data) in
            let expires := now' + (expires_in - 60) * 1000000 in
            if bool_decide (0 ≤ expires < datetime_end)
            then (Some token,
                  Sync (client_id self) (client_secret self)
                       (refresh_token self) (album_id self)
                       (Some token) (Some expires))
            else (None, self1)
        end
    end.

Definition get_album_photos (self : sync) (now now' : Z) (max_photos : Z)
    : list photo_item * sync :=
  let '(token, self) := get_access_token self now now' in
  match token, album_id self with
  | Some (String _ _ as token), Some (String _ _ as album) =>
      match post_search token album (Z.min max_photos 100) with
      | Ok (200, Ok data) => (default [] data, self)
      | _ => ([], self)
      end
  | _, _ => ([], self)
  end.

Definition download_photo (photo : photo_item) : option downloaded_photo :=
  match baseUrl photo with
  | None => None
  | Some base_url =>
      match http_get (base_url +:+ "=w600-h448-c") with
      | Ok (200, content) =>
          match item_id photo with
          | None => None
          | Some google_id =>
              Some (Downloaded (b64encode content)
                               (default "unknown.jpg" (item_filename photo))
                               (default "" (mjoin (mediaMetadata photo)))
                               google_id)
          end
      | _ => None
      end
  end.

(** The loop of [sync_album_photos] from iteration [i] on;
    [clock i] is [datetime.now().isoformat()] in iteration [i]. *)
Fixpoint sync_loop (process_image_callback : string → option string)
    (clock : nat → string) (i : nat) (photos : list photo_item)
    (processed_photos : list synced_photo) : list synced_photo :=
  match photos with
  | [] => processed_photos
  | photo :: photos' =>
      let processed_photos :=
        match download_photo photo with
        | Some downloaded =>
            match process_image_callback (base64 downloaded) with
            | Some (String _ _ as processed_data) =>
                processed_photos
                  ++ [Synced processed_data (clock i) (filename downloaded)
                             (id downloaded) (creation_time downloaded)]
            | _ => processed_photos
            end
        | None => processed_photos
        end in
      sync_loop process_image_callback clock (S i) photos' processed_photos
  end.

Definition sync_album_photos (self : sync) (now now' : Z)
    (process_image_callback : string → option string) (clock : nat → string)
    (max_photos : Z) : list synced_photo * sync :=
  let '(photos, self) := get_album_photos self now now' max_photos in
  match photos with
  | [] => ([], self)
  | _ :: _ => (sync_loop process_image_callback clock 0 photos [], self)
  end.
End Sync.

End GooglePhotos.

Import GooglePhotos.

(** * Part II: predicates used in the statements *)

(** What the nearest-colour loop records once the keys [keys] have been
    visited: the first key of least distance from [rgb]. *)
Definition first_argmin (rgb : pixel) (keys : list pixel) (i : nat) (c : pixel) : Prop :=
  keys !! i = Some c
  ∧ (∀ j p, keys !! j = Some p → sq_dist rgb c ≤ sq_dist rgb p)
  ∧ (∀ j p, (j < i)%nat → keys !! j = Some p → sq_dist rgb c < sq_dist rgb p).

(** Every pixel in the first [W] columns that is visited before (x, y)
    holds a palette colour. *)
Definition quantised_before (W : nat) (px : raster) (y x : nat) : Prop :=
  ∀ y' x' p, (x' < W)%nat → scan_before y' x' y x →
             get_px px y' x' = Some p → p ∈ palette_keys.

(** A value an [int16] holds; a pixel of the buffer. *)
Definition int16 (v : Z) : Prop := -32768 ≤ v ≤ 32767.

Definition pixel_int16 (p : pixel) : Prop :=
  int16 (red p) ∧ int16 (green p) ∧ int16 (blue p).

(** (y', x') is the visited pixel (x, y) or one of its four diffusion
    targets: right, below left, below, below right. *)
Definition touched_by (y x y' x' : nat) : Prop :=
  (y' = y ∧ x' = x)
  ∨ (y' = y ∧ x' = x + 1)%nat
  ∨ (y' = y + 1 ∧ x' + 1 = x)%nat
  ∨ (y' = y + 1 ∧ x' = x)%nat
  ∨ (y' = y + 1 ∧ x' = x + 1)%nat.

(** The record that iteration [k] of the sync loop appends for [photo]:
    the photo downloads, the callback accepts its base64 text, and the
    record holds the callback's result, the clock reading of that
    iteration and the downloaded file name, id and creation time. *)
Definition synced_by (http_get : string → exc (Z * string)) (b64encode : string → string)
    (process_image_callback : string → option string) (clock : nat → string)
    (k : nat) (photo : photo_item) (r : synced_photo) : Prop :=
  ∃ downloaded,
    download_photo http_get b64encode photo = Some downloaded
    ∧ process_image_callback (base64 downloaded) = Some (sp_data r)
    ∧ sp_data r ≠ ""
    ∧ r = Synced (sp_data r) (clock k) (filename downloaded) (id downloaded)
                 (creation_time downloaded).

(** The token on the wire for a pixel, written out: the code of each of
    the seven colours, and [0xFF] for any other colour. *)
Definition wire_token (rgb : pixel) : string :=
  if decide (rgb = (255, 255, 255)) then "0xFF"
  else if decide (rgb = (255, 255, 0)) then "0xFC"
  else if decide (rgb = (255, 165, 0)) then "0xEC"
  else if decide (rgb = (255, 0, 0)) then "0xE0"
  else if decide (rgb = (0, 128, 0)) then "0x35"
  else if decide (rgb = (0, 0, 255)) then "0x2B"
  else if decide (rgb = (0, 0, 0)) then "0x00"
  else "0xFF".

(** What a finished row of the scan has appended for column [x]. *)
Definition token_at (im : image) (y x : nat) (t : string) : Prop :=
  ∃ rgb, get_px (rows im) y x = Some rgb ∧ t = pixel_token rgb.

(** The reading of C3 that the delivered list is kept by identity: store
    two entries that are distinct objects with equal content and deliver
    the first; then the second is not yet counted as delivered, and after
    it is delivered too the count is 2. *)
Definition delivered_by_identity : Prop :=
  ∀ (k : nat) (r : image_record),
    let st := store (store (cleared k) (data r) (timestamp r) (name r))
                    (data r) (timestamp r) (name r) in
    ∀ e1 e2, processed_images st = [e1; e2] → oid e1 ≠ oid e2 →
             fields e1 = fields e2 →
      py_in e2 (sent_images (polls 1 st)) = false
      ∧ (status (polls 2 st)).1 = JsonStatus 2 2 0.

(** The reading of C9 as written: the 2 by 2 raster of (10,10,10) dithers
    to Black throughout, encodes to four [0x00], and every quantisation
    error of the pass is zero. *)
Definition solid_10_zero_error : Prop :=
  let im := solid 2 2 (10, 10, 10) in
  rows (apply_floyd_steinberg_dithering im) = [[Black; Black]; [Black; Black]]
  ∧ encode_pixels 2 2 (apply_floyd_steinberg_dithering im)
    = Ok ["0x00"; "0x00"; "0x00"; "0x00"]
  ∧ Forall (λ e, e = (0, 0, 0)) (quant_errors 2 2 (rows im) (scan_order 2 2)).

(** * Part III: evaluations *)

Example dither_solid_10 :
  rows (apply_floyd_steinberg_dithering (solid 2 2 (10, 10, 10)))
  = [[Black; Black]; [Black; Black]].
Proof. vm_compute. reflexivity. Qed.

Example dither_first_step :
  dither_pixel 2 2 (rows (solid 2 2 (10, 10, 10))) 0 0
  = [[(0,0,0); (14,14,14)]; [(13,13,13); (10,10,10)]].
Proof. vm_compute. reflexivity. Qed.

Example quant_errors_solid_10 :
  quant_errors 2 2 (rows (solid 2 2 (10, 10, 10))) (scan_order 2 2)
  = [(10,10,10); (14,14,14); (15,15,15); (20,20,20)].
Proof. vm_compute. reflexivity. Qed.

Example format_examples :
  map format_02X [0; 10; 0x2B; 0xFF; 0x1AB] = ["00"; "0A"; "2B"; "FF"; "1AB"].
Proof. vm_compute. reflexivity. Qed.

Example encode_solid_10 :
  (data_array <~ encode_pixels 2 2 (apply_floyd_steinberg_dithering (solid 2 2 (10, 10, 10)));
   Ok (join ", " data_array))
  = Ok "0x00, 0x00, 0x00, 0x00".
Proof. vm_compute. reflexivity. Qed.

Example default_name_3 : default_name 3 = "image_3".
Proof. reflexivity. Qed.

Example cycle_example :
  let st := store (store (store initial "A" "t1" "a") "B" "t2" "b") "C" "t3" "c" in
  map (λ n, (get_img_data (polls n st)).1) (seq 0 5)
  = [TextPlain "A"; TextPlain "B"; TextPlain "C"; TextPlain "A"; TextPlain "B"].
Proof. vm_compute. reflexivity. Qed.

Example split_examples :
  split "," "a,b,,c" = ["a"; "b"; ""; "c"]
  ∧ split "," "" = [""]
  ∧ split "aa" "aaa" = [""; "a"]
  ∧ split "albums/" "https://photos.google.com/share/albums/AF1Qip?key=abc"
    = ["https://photos.google.com/share/"; "AF1Qip?key=abc"].
Proof. repeat split. Qed.

Example album_id_example :
  get_album_id_from_url (λ _, Ok "https://photos.google.com/share/albums/AF1Qip?key=abc")
    "https://photos.app.goo.gl/xyz"
  = Some "AF1Qip".
Proof. reflexivity. Qed.

(** * Part IV: proofs *)

(** ** Nearest colour: loop invariant *)

Section closest.
Variable rgb : pixel.

Lemma closest_loop_snoc keys k :
  closest_loop rgb (keys ++ [k]) = closest_step rgb (closest_loop rgb keys) k.
Proof. unfold closest_loop. by rewrite fold_left_app. Qed.

Lemma closest_loop_inv keys :
  keys ≠ [] →
  ∃ i c, closest_loop rgb keys = (Some (sq_dist rgb c), c)
         ∧ first_argmin rgb keys i c.
Proof.
  induction keys as [|k keys IH] using rev_ind; [done|]. intros _.
  rewrite closest_loop_snoc.
  destruct (decide (keys = [])) as [->|Hne].
  - exists 0%nat, k. split; [reflexivity|]. unfold first_argmin. split_and!; [done|..].
    + intros [|j] p Hj; simpl in Hj; [|done]. by inversion Hj.
    + lia.
  - destruct (IH Hne) as (i & c & -> & Hi & Hle & Hlt).
    unfold closest_step; simpl.
    destruct (Z.ltb_spec (sq_dist rgb k) (sq_dist rgb c)) as [Hk|Hk].
    + exists (length keys), k. split; [done|]. unfold first_argmin. split_and!.
      * by rewrite lookup_app_r, Nat.sub_diag.
      * intros j p Hj. apply lookup_app_Some in Hj as [Hj|[_ Hj]].
        -- specialize (Hle _ _ Hj). lia.
        -- destruct (j - length keys)%nat; simpl in Hj; [|done].
           inversion Hj; subst. lia.
      * intros j p Hlen Hj. rewrite lookup_app_l in Hj by done.
        specialize (Hle _ _ Hj). lia.
    + exists i, c. split; [done|]. unfold first_argmin. split_and!.
      * rewrite lookup_app_l; [done|]. by eapply lookup_lt_Some.
      * intros j p Hj. apply lookup_app_Some in Hj as [Hj|[_ Hj]].
        -- by eapply Hle.
        -- destruct (j - length keys)%nat; simpl in Hj; [|done].
           inversion Hj; subst. lia.
      * intros j p Hji Hj. rewrite lookup_app_l in Hj.
        -- by eapply Hlt.
        -- apply lookup_lt_Some in Hi. lia.
Qed.
End closest.

Lemma closest_in_palette rgb : closest_palette_color rgb ∈ palette_keys.
Proof.
  destruct (closest_loop_inv rgb palette_keys) as (i & c & Heq & Hi & _); [done|].
  unfold closest_palette_color. rewrite Heq. simpl.
  apply list_elem_of_lookup. eauto.
Qed.

(** C7: [closest_palette_color] returns a palette key at least squared
    Euclidean distance from its argument, and among the keys at that
    distance the one listed first in the order White, Yellow, Orange, Red,
    Green, Blue, Black: every key listed before the result is strictly
    farther away. *)
Theorem closest_palette_color_first_nearest (rgb : pixel) :
  palette_keys =
    [(255,255,255); (255,255,0); (255,165,0); (255,0,0); (0,128,0); (0,0,255); (0,0,0)]
  ∧ ∃ i : nat,
      palette_keys !! i = Some (closest_palette_color rgb)
      ∧ (∀ (j : nat) (p : pixel), palette_keys !! j = Some p →
           sq_dist rgb (closest_palette_color rgb) ≤ sq_dist rgb p)
      ∧ (∀ (j : nat) (p : pixel), (j < i)%nat → palette_keys !! j = Some p →
           sq_dist rgb (closest_palette_color rgb) < sq_dist rgb p).
Proof.
  split; [reflexivity|].
  destruct (closest_loop_inv rgb palette_keys) as (i & c & Heq & Hi); [done|].
  unfold closest_palette_color. rewrite Heq. simpl. by exists i.
Qed.

(** A colour at equal distance from Yellow and Orange resolves to Yellow. *)
Lemma closest_palette_color_tie_witness :
  sq_dist (255, 210, 0) Yellow = sq_dist (255, 210, 0) Orange
  ∧ closest_palette_color (255, 210, 0) = Yellow
  ∧ ∃ i : nat, palette_keys !! i = Some (closest_palette_color (255, 210, 0))
      ∧ (∀ (j : nat) (p : pixel), palette_keys !! j = Some p →
           sq_dist (255, 210, 0) (closest_palette_color (255, 210, 0)) ≤ sq_dist (255, 210, 0) p)
      ∧ (∀ (j : nat) (p : pixel), (j < i)%nat → palette_keys !! j = Some p →
           sq_dist (255, 210, 0) (closest_palette_color (255, 210, 0)) < sq_dist (255, 210, 0) p).
Proof.
  split; [reflexivity|]. split; [reflexivity|].
  exact (proj2 (closest_palette_color_first_nearest (255, 210, 0))).
Defined.

(** ** Reads of the buffer after an update *)

Lemma get_alter_px f y0 x0 (px : raster) y x :
  get_px (alter_px f y0 x0 px) y x
  = if decide (y = y0 ∧ x = x0) then f <$> get_px px y x else get_px px y x.
Proof.
  unfold get_px, alter_px.
  destruct (decide (y = y0)) as [->|Hy].
  - rewrite list_lookup_alter_eq. destruct (px !! y0) as [row|]; simpl.
    + destruct (decide (x = x0)) as [->|Hx].
      * rewrite list_lookup_alter_eq. by rewrite decide_True.
      * rewrite list_lookup_alter_ne by done.
        case_decide; [lia|done].
    + by case_decide.
  - rewrite list_lookup_alter_ne by done.
    case_decide; [lia|done].
Qed.

Lemma wf_alter_px W H f y x (px : raster) :
  wf_raster W H px → wf_raster W H (alter_px f y x px).
Proof.
  intros [Hlen Hrows]. split.
  - unfold alter_px. by rewrite length_alter.
  - apply Forall_lookup. intros i row Hi. unfold alter_px in Hi.
    rewrite Forall_lookup in Hrows.
    destruct (decide (i = y)) as [->|Hne].
    + rewrite list_lookup_alter_eq in Hi.
      destruct (px !! y) as [row0|] eqn:Hy; simplify_eq/=.
      rewrite length_alter. by eapply Hrows.
    + rewrite list_lookup_alter_ne in Hi by done. by eapply Hrows.
Qed.

Ltac split_guards :=
  repeat case_bool_decide; rewrite ?get_alter_px; repeat case_decide.

(** Visiting (x, y) writes no pixel visited earlier. *)
Lemma dither_pixel_before W H (px : raster) y x y0 x0 :
  scan_before y0 x0 y x →
  get_px (dither_pixel W H px y x) y0 x0 = get_px px y0 x0.
Proof.
  unfold scan_before, dither_pixel. intros Hb.
  destruct (get_px px y x) as [old|]; [|done].
  cbv zeta. split_guards; first [done | lia].
Qed.

(** Visiting (x, y) leaves the quantised colour there. *)
Lemma dither_pixel_self W H (px : raster) y x old :
  get_px px y x = Some old →
  get_px (dither_pixel W H px y x) y x = Some (closest_palette_color old).
Proof.
  unfold dither_pixel. intros Hold. rewrite Hold.
  cbv zeta. split_guards; rewrite ?Hold; first [done | lia].
Qed.

(** Visiting (x, y) changes that pixel and its four targets at most. *)
Lemma dither_pixel_touches W H (px : raster) y x y' x' :
  get_px (dither_pixel W H px y x) y' x' ≠ get_px px y' x' →
  touched_by y x y' x'.
Proof.
  unfold touched_by, dither_pixel.
  destruct (get_px px y x) as [old|]; [|done].
  cbv zeta. split_guards; first [done | lia].
Qed.

Lemma touched_not_before y x y' x' :
  touched_by y x y' x' → ¬ scan_before y' x' y x.
Proof. unfold touched_by, scan_before. lia. Qed.

(** ** The casts to [int16] do not wrap *)

Lemma wrap16_small v : int16 v → wrap16 v = v.
Proof. unfold int16, wrap16. intros Hv. rewrite Z.mod_small; lia. Qed.

Lemma wrap16_range v : int16 (wrap16 v).
Proof.
  unfold int16, wrap16. pose proof (Z.mod_pos_bound (v + 32768) 65536). lia.
Qed.

Lemma weighted_quot_bounds e k :
  -33023 ≤ e ≤ 32767 → 0 ≤ k ≤ 7 → int16 (e * k ÷ 16).
Proof.
  intros He Hk. unfold int16.
  pose proof (Z.quot_rem' (e * k) 16) as Hqr.
  pose proof (Z.rem_bound_abs (e * k) 16 ltac:(lia)) as Hr.
  nia.
Qed.

Lemma palette_channels p :
  p ∈ palette_keys →
  0 ≤ red p ≤ 255 ∧ 0 ≤ green p ≤ 255 ∧ 0 ≤ blue p ≤ 255.
Proof.
  intros Hp.
  assert (Forall (λ q, 0 ≤ red q ≤ 255 ∧ 0 ≤ green q ≤ 255 ∧ 0 ≤ blue q ≤ 255)
            palette_keys) as Hall
    by (repeat constructor; unfold red, green, blue; simpl; lia).
  rewrite Forall_forall in Hall. by apply Hall.
Qed.

(** The error of a buffer pixel, weighted by at most 7/16, fits [int16]:
    the cast of the quotient is the truncated quotient itself. *)
Lemma weighted_in_int16 old k :
  pixel_int16 old → 0 ≤ k ≤ 7 →
  pixel_int16 (weighted (pixel_sub old (closest_palette_color old)) k).
Proof.
  intros (Hr & Hg & Hb) Hk.
  destruct (palette_channels _ (closest_in_palette old)) as (Pr & Pg & Pb).
  unfold int16 in *.
  unfold pixel_int16, weighted, pixel_sub; cbn [red green blue fst snd].
  split_and!; apply weighted_quot_bounds; unfold red, green, blue in *; lia.
Qed.

Lemma add_int16_range d p : pixel_int16 (add_int16 d p).
Proof. unfold pixel_int16, add_int16. split_and!; apply wrap16_range. Qed.

Lemma wf_dither_pixel W H (px : raster) y x :
  wf_raster W H px → wf_raster W H (dither_pixel W H px y x).
Proof.
  intros Hwf. unfold dither_pixel.
  destruct (get_px px y x) as [old|]; [|done].
  cbv zeta. repeat case_bool_decide; repeat apply wf_alter_px; done.
Qed.

(** ** Loop invariant of the scan *)

Section scan.
Variables W H : nat.

Lemma quantised_step px y x :
  quantised_before W px y x →
  quantised_before W (dither_pixel W H px y x) y (x + 1).
Proof.
  intros Hinv y' x' p Hx' Hb Hget.
  destruct (decide (y' = y ∧ x' = x)) as [[-> ->]|Hne].
  - destruct (get_px px y x) as [old|] eqn:Hold.
    + rewrite (dither_pixel_self _ _ _ _ _ old) in Hget by done.
      inversion Hget. apply closest_in_palette.
    + unfold dither_pixel in Hget. rewrite Hold in Hget. congruence.
  - assert (scan_before y' x' y x) as Hb' by (unfold scan_before in *; lia).
    rewrite dither_pixel_before in Hget by done. by eapply Hinv.
Qed.

Lemma quantised_cols y n : ∀ a px,
  quantised_before W px y a →
  quantised_before W
    (fold_left (λ px x, dither_pixel W H px y x) (seq a n) px) y (a + n).
Proof.
  induction n as [|n IH]; intros a px Hinv; simpl.
  - by rewrite Nat.add_0_r.
  - replace (a + S n)%nat with (S a + n)%nat by lia. apply IH.
    replace (S a) with (a + 1)%nat by lia. by apply quantised_step.
Qed.

Lemma quantised_row px y :
  quantised_before W px y 0 →
  quantised_before W (dither_row W H px y) (y + 1) 0.
Proof.
  intros Hinv. pose proof (quantised_cols y W 0 px Hinv) as Hrow.
  intros y' x' p Hx' Hb. apply Hrow; [done|].
  unfold scan_before in *. lia.
Qed.

Lemma quantised_rows n : ∀ b px,
  quantised_before W px b 0 →
  quantised_before W (fold_left (dither_row W H) (seq b n) px) (b + n) 0.
Proof.
  induction n as [|n IH]; intros b px Hinv; simpl.
  - by rewrite Nat.add_0_r.
  - replace (b + S n)%nat with (S b + n)%nat by lia. apply IH.
    replace (S b) with (b + 1)%nat by lia. by apply quantised_row.
Qed.

Lemma quantised_loop px : quantised_before W (dither_loop W H px) H 0.
Proof.
  apply (quantised_rows H 0 px). intros y' x' p _ Hb.
  unfold scan_before in Hb. lia.
Qed.

Lemma wf_dither_loop px : wf_raster W H px → wf_raster W H (dither_loop W H px).
Proof.
  unfold dither_loop. generalize (seq 0 H). intros ys. revert px.
  induction ys as [|y ys IH]; intros px Hwf; simpl; [done|].
  apply IH. unfold dither_row. generalize (seq 0 W). intros xs.
  revert px Hwf. induction xs as [|x xs IHx]; intros px Hwf; simpl; [done|].
  apply IHx. by apply wf_dither_pixel.
Qed.
End scan.

Lemma clip_pixel_palette p : p ∈ palette_keys → clip_pixel p = p.
Proof.
  intros Hp. assert (Forall (λ q, clip_pixel q = q) palette_keys) as Hall
    by (repeat constructor).
  rewrite Forall_forall in Hall. by apply Hall.
Qed.

Lemma wf_fmap_raster W H (f : pixel → pixel) (px : raster) :
  wf_raster W H px → wf_raster W H (map (map f) px).
Proof.
  intros [Hlen Hrows]. split; [by rewrite length_map|].
  apply Forall_fmap. eapply Forall_impl; [exact Hrows|].
  intros row Hrow. simpl. by rewrite length_map.
Qed.

Lemma wf_solid W H p : wf_image (solid W H p).
Proof.
  split; simpl; [by rewrite length_replicate|].
  apply Forall_replicate. by rewrite length_replicate.
Qed.

Lemma wf_dithered (im : image) :
  wf_image im →
  wf_raster (width im) (height im) (rows (apply_floyd_steinberg_dithering im)).
Proof. intros Hwf. apply wf_fmap_raster, wf_dither_loop, Hwf. Qed.

Lemma dithered_rows_palette (im : image) :
  wf_image im →
  Forall (Forall (λ p, p ∈ palette_keys)) (rows (apply_floyd_steinberg_dithering im)).
Proof.
  intros Hwf. destruct im as [W H px]. unfold wf_image in Hwf. simpl in *.
  pose proof (wf_dither_loop W H px Hwf) as [Hlen Hrows].
  pose proof (quantised_loop W H px) as Hq.
  apply Forall_fmap, Forall_lookup. intros y row Hy. simpl.
  apply Forall_fmap, Forall_lookup. intros x p Hx. simpl.
  assert (get_px (dither_loop W H px) y x = Some p) as Hget
    by (unfold get_px; rewrite Hy; done).
  rewrite Forall_lookup in Hrows. specialize (Hrows _ _ Hy).
  assert (p ∈ palette_keys) as Hp.
  { apply (Hq y x p); [|unfold scan_before|done].
    - apply lookup_lt_Some in Hx. lia.
    - apply lookup_lt_Some in Hy. lia. }
  by rewrite clip_pixel_palette.
Qed.

(** C1: on every rectangular raster the dithering pass returns a raster of
    the same shape whose every pixel is one of the seven palette colours.
    The reasons are part of the statement: visiting a pixel stores its
    quantised colour there, a palette colour; a visit changes the visited
    pixel and its four diffusion targets at most, none of them earlier in
    row-major order, so it leaves every pixel visited earlier as it was;
    and the closing clamp to [0,255] with the cast to 8 bits maps each
    palette colour to itself. *)
Theorem dithering_palette_closure (im : image) :
  wf_image im →
  wf_image (apply_floyd_steinberg_dithering im)
  ∧ width (apply_floyd_steinberg_dithering im) = width im
  ∧ height (apply_floyd_steinberg_dithering im) = height im
  ∧ Forall (Forall (λ p, p ∈ palette_keys)) (rows (apply_floyd_steinberg_dithering im))
  ∧ (∀ (px : raster) y x old,
       get_px px y x = Some old →
       get_px (dither_pixel (width im) (height im) px y x) y x
         = Some (closest_palette_color old)
       ∧ closest_palette_color old ∈ palette_keys)
  ∧ (∀ (px : raster) y x y' x',
       get_px (dither_pixel (width im) (height im) px y x) y' x' ≠ get_px px y' x' →
       touched_by y x y' x' ∧ ¬ scan_before y' x' y x)
  ∧ (∀ (px : raster) y x y0 x0,
       scan_before y0 x0 y x →
       get_px (dither_pixel (width im) (height im) px y x) y0 x0 = get_px px y0 x0)
  ∧ (∀ p, p ∈ palette_keys → clip_pixel p = p).
Proof.
  intros Hwf. split_and!.
  - exact (wf_dithered im Hwf).
  - done.
  - done.
  - by apply dithered_rows_palette.
  - intros px y x old Hold. split.
    + by apply dither_pixel_self.
    + apply closest_in_palette.
  - intros px y x y' x' Hch. apply dither_pixel_touches in Hch.
    split; [done|]. by apply touched_not_before.
  - intros px y x y0 x0 Hb. by apply dither_pixel_before.
  - apply clip_pixel_palette.
Qed.

Lemma dithering_palette_closure_witness :
  wf_image (solid 2 2 (10, 10, 10))
  ∧ Forall (Forall (λ p, p ∈ palette_keys))
      (rows (apply_floyd_steinberg_dithering (solid 2 2 (10, 10, 10)))).
Proof.
  assert (wf_image (solid 2 2 (10, 10, 10))) as Hwf
    by (split; [reflexivity|repeat constructor]).
  split; [exact Hwf|].
  exact (proj1 (proj2 (proj2 (proj2 (dithering_palette_closure _ Hwf))))).
Defined.

(** ** The scan as one loop over the visiting order *)

Lemma dither_loop_scan_order W H (px : raster) :
  dither_loop W H px
  = fold_left (λ px '(y, x), dither_pixel W H px y x) (scan_order W H) px.
Proof.
  unfold dither_loop, scan_order. generalize (seq 0 H). intros ys. revert px.
  induction ys as [|y ys IH]; intros px; [done|].
  rewrite bind_cons, fold_left_app. simpl. rewrite IH. f_equal.
  unfold dither_row. generalize (seq 0 W). intros xs. revert px.
  induction xs as [|x xs IHx]; intros px; [done|].
  rewrite bind_cons. simpl. by rewrite IHx.
Qed.

(** The first pixel has error (10,10,10), of which 4 goes right and 3
    goes down. *)
Lemma solid_10_zero_error_counterexample :
  quant_error_at (rows (solid 2 2 (10, 10, 10))) 0 0 = Some (10, 10, 10)
  ∧ dither_pixel 2 2 (rows (solid 2 2 (10, 10, 10))) 0 0
    = [[(0, 0, 0); (14, 14, 14)]; [(13, 13, 13); (10, 10, 10)]]
  ∧ ¬ solid_10_zero_error.
Proof.
  split_and!; [reflexivity|reflexivity|].
  intros (_ & _ & Hzero). vm_compute in Hzero.
  apply Forall_cons in Hzero as [Hzero _]. discriminate.
Qed.

(** C9, as the code has it: the 2 by 2 raster of (10,10,10) dithers to
    Black throughout and encodes to four [0x00]; the quantisation errors,
    in scan order, are 10, 14, 15 and 20 on every channel, not zero; they
    are diffused to the neighbours inside the raster only, which keeps its
    2 by 2 shape. *)
Theorem solid_10_dithers_to_black :
  let im := solid 2 2 (10, 10, 10) in
  apply_floyd_steinberg_dithering im = solid 2 2 Black
  ∧ (data_array <~ encode_pixels 2 2 (apply_floyd_steinberg_dithering im);
     Ok (join ", " data_array))
    = Ok "0x00, 0x00, 0x00, 0x00"
  ∧ quant_errors 2 2 (rows im) (scan_order 2 2)
    = [(10, 10, 10); (14, 14, 14); (15, 15, 15); (20, 20, 20)]
  ∧ dither_pixel 2 2 (rows im) 0 0
    = [[(0, 0, 0); (14, 14, 14)]; [(13, 13, 13); (10, 10, 10)]]
  ∧ fold_left (λ px '(y, x), dither_pixel 2 2 px y x) (scan_order 2 2) (rows im)
    = dither_loop 2 2 (rows im)
  ∧ wf_image (apply_floyd_steinberg_dithering im).
Proof.
  split_and!; try (vm_compute; reflexivity).
  exact (wf_dithered _ (wf_solid 2 2 (10, 10, 10))).
Qed.

(** ** The encoder loops *)

Lemma encode_cols_spec (im : image) y xs : ∀ acc res,
  for_each xs
    (λ data_array x, rgb <~ getpixel im x y; Ok (data_array ++ [pixel_token rgb]))
    acc = Ok res →
  ∃ ts, res = acc ++ ts ∧ Forall2 (token_at im y) xs ts.
Proof.
  induction xs as [|x xs IH]; intros acc res Hrun; simpl in Hrun.
  - inversion Hrun. exists []. by rewrite app_nil_r.
  - unfold getpixel in Hrun at 1.
    destruct (get_px (rows im) y x) as [rgb|] eqn:Hpx; simpl in Hrun; [|done].
    destruct (IH _ _ Hrun) as (ts & -> & Hts).
    exists (pixel_token rgb :: ts). split; [by rewrite <- app_assoc|].
    constructor; [by exists rgb|done].
Qed.

Lemma encode_rows_spec W (im : image) ys : ∀ acc res,
  for_each ys (encode_row W im) acc = Ok res →
  ∃ tss, res = acc ++ mjoin tss
         ∧ Forall2 (λ y ts, Forall2 (token_at im y) (seq 0 W) ts) ys tss.
Proof.
  induction ys as [|y ys IH]; intros acc res Hrun; simpl in Hrun.
  - inversion Hrun. exists []. by rewrite app_nil_r.
  - destruct (encode_row W im acc y) as [acc'|] eqn:Hrow; simpl in Hrun; [|done].
    apply encode_cols_spec in Hrow as (ts & -> & Hts).
    destruct (IH _ _ Hrun) as (tss & -> & Htss).
    exists (ts :: tss). split; [by rewrite <- app_assoc|by constructor].
Qed.

Lemma encode_pixels_spec W H (im : image) toks :
  encode_pixels W H im = Ok toks →
  length toks = (H * W)%nat
  ∧ ∀ y x, (y < H)%nat → (x < W)%nat →
      ∃ rgb, get_px (rows im) y x = Some rgb
             ∧ toks !! (y * W + x)%nat = Some (pixel_token rgb).
Proof.
  intros Hrun. apply encode_rows_spec in Hrun as (tss & -> & Htss). simpl.
  assert (Forall (λ ts, length ts = W) tss) as Hlens.
  { apply Forall_lookup. intros i ts Hi.
    destruct (Forall2_lookup_r _ _ _ _ _ Htss Hi) as (y & _ & Hts).
    apply Forall2_length in Hts. by rewrite length_seq in Hts. }
  assert (length tss = H) as Hlen
    by (apply Forall2_length in Htss; by rewrite length_seq in Htss).
  split.
  - rewrite length_join, (sum_list_fmap_same W) by done. by rewrite Hlen.
  - intros y x Hy Hx.
    destruct (Forall2_lookup_l _ _ _ y y Htss) as (ts & Hts & Hrow);
      [by apply lookup_seq_lt|].
    destruct (Forall2_lookup_l _ _ _ x x Hrow) as (t & Ht & rgb & Hpx & ->);
      [by apply lookup_seq_lt|].
    exists rgb. split; [done|].
    apply join_lookup_Some_same_length'; [done|done|]. by exists ts.
Qed.

(** On an image of the scanned shape no read fails. *)
Lemma encode_pixels_succeeds W H (im : image) :
  wf_raster W H (rows im) → ∃ toks, encode_pixels W H im = Ok toks.
Proof.
  intros [Hlen Hrows]. unfold encode_pixels.
  assert (∀ ys acc, Forall (λ y, y < H)%nat ys →
            ∃ toks, for_each ys (encode_row W im) acc = Ok toks) as Hys.
  { induction ys as [|y ys IH]; intros acc Hall; simpl; [by eexists|].
    apply Forall_cons in Hall as [Hy Hall].
    assert (∃ acc', encode_row W im acc y = Ok acc') as [acc' ->]; [|by apply IH].
    unfold encode_row.
    assert (∀ xs acc, Forall (λ x, x < W)%nat xs →
              ∃ acc', for_each xs
                (λ data_array x, rgb <~ getpixel im x y; Ok (data_array ++ [pixel_token rgb]))
                acc = Ok acc') as Hxs.
    { induction xs as [|x xs IHx]; intros acc0 Hallx; simpl; [by eexists|].
      apply Forall_cons in Hallx as [Hx Hallx].
      destruct (lookup_lt_is_Some_2 (rows im) y) as [row Hrow]; [lia|].
      rewrite Forall_lookup in Hrows. specialize (Hrows _ _ Hrow).
      destruct (lookup_lt_is_Some_2 row x) as [rgb Hrgb]; [lia|].
      unfold getpixel at 1, get_px. rewrite Hrow. simpl. rewrite Hrgb. simpl.
      by apply IHx. }
    apply Hxs, Forall_seq. lia. }
  apply Hys, Forall_seq. lia.
Qed.

Lemma dict_get_default_or_value (d : list (pixel * Z)) key default :
  dict_get d key default = default ∨ dict_get d key default ∈ map snd d.
Proof.
  induction d as [|[k v] d IH]; simpl; [by left|].
  case_decide.
  - right. apply elem_of_cons. by left.
  - destruct IH as [IH|IH]; [by left|]. right. apply elem_of_cons. by right.
Qed.

Lemma pixel_token_is_token rgb : is_token (pixel_token rgb).
Proof.
  assert (Forall (λ code, is_token ("0x" +:+ format_02X code))
            (0xFF :: map snd color_palette)) as Hall.
  { repeat (apply Forall_cons; split); try apply Forall_nil.
    all: unfold is_token; do 2 eexists; split_and!.
    all: try reflexivity.
    all: unfold is_upper_hex; simpl; repeat constructor. }
  rewrite Forall_forall in Hall. apply Hall. unfold color_code.
  destruct (dict_get_default_or_value color_palette rgb 0xFF) as [->| Hin].
  - apply elem_of_cons. by left.
  - apply elem_of_cons. by right.
Qed.

(** ** The pipeline *)

Section pipeline_facts.
Variable decode_image : string → exc image.
Variable resize_rgb : image → exc image.

Lemma process_image_Some image_data s :
  process_image decode_image resize_rgb image_data = Some s →
  ∃ im0 im toks,
    decode_image image_data = Ok im0 ∧ resize_rgb im0 = Ok im
    ∧ encode_pixels 600 448 (apply_floyd_steinberg_dithering im) = Ok toks
    ∧ s = join ", " toks.
Proof.
  unfold process_image, process_image_body. intros Hs.
  destruct (decode_image image_data) as [im0|] eqn:Hdec;
    cbn [exc_bind] in Hs; [|discriminate].
  destruct (resize_rgb im0) as [im|] eqn:Hres;
    cbn [exc_bind] in Hs; [|discriminate].
  destruct (encode_pixels 600 448 _) as [toks|] eqn:Henc;
    cbn [exc_bind] in Hs; [|discriminate].
  inversion Hs. exists im0, im, toks. auto.
Qed.

Lemma process_image_succeeds image_data im0 im :
  decode_image image_data = Ok im0 → resize_rgb im0 = Ok im →
  wf_image im → width im = 600%nat → height im = 448%nat →
  ∃ s, process_image decode_image resize_rgb image_data = Some s.
Proof.
  intros Hdec Hres Hwf HW HH. unfold process_image, process_image_body.
  rewrite Hdec. cbn [exc_bind]. rewrite Hres. cbn [exc_bind].
  destruct (encode_pixels_succeeds 600 448 (apply_floyd_steinberg_dithering im))
    as [toks ->]; [|cbn [exc_bind]; eexists; reflexivity].
  pose proof (wf_dithered im Hwf) as Hwf'.
  rewrite HW, HH in Hwf'. exact Hwf'.
Qed.

Lemma process_image_raises image_data msg :
  step_raises decode_image resize_rgb image_data msg →
  process_image decode_image resize_rgb image_data = None.
Proof.
  unfold process_image, process_image_body.
  intros [Hdec|[(im & Hdec & Hres)|(im & im' & Hdec & Hres & Henc)]];
    rewrite Hdec; cbn [exc_bind]; [reflexivity|..];
    rewrite Hres; cbn [exc_bind]; [reflexivity|].
  rewrite Henc. reflexivity.
Qed.
End pipeline_facts.

(** C6: when a step of the pipeline raises, [process_image] returns [None]
    rather than raising, and the upload that asked for it answers with an
    error and stores nothing: the whole registry state, so the sequence,
    the cursor and the delivered list, is as before. *)
Theorem failed_upload_stores_nothing
    (decode_image : string → exc image) (resize_rgb : image → exc image)
    (image_data msg : string) :
  step_raises decode_image resize_rgb image_data msg →
  process_image decode_image resize_rgb image_data = None
  ∧ ∀ (st : state) (name : option string) (now : string),
      upload_image decode_image resize_rgb st
        (Some (UploadJson (Some image_data) name)) now
      = (JsonError "Failed to process image" 500, st).
Proof.
  intros Hraise. apply process_image_raises in Hraise.
  split; [exact Hraise|]. intros st name now. unfold upload_image.
  cbn [req_image]. rewrite Hraise. reflexivity.
Qed.

Lemma failed_upload_stores_nothing_witness :
  step_raises (λ _, Raise "cannot identify image file") Ok "bm90IGFuIGltYWdl"
    "cannot identify image file"
  ∧ upload_image (λ _, Raise "cannot identify image file") Ok initial
      (Some (UploadJson (Some "bm90IGFuIGltYWdl") None)) "2025-01-01T00:00:00"
    = (JsonError "Failed to process image" 500, initial).
Proof.
  assert (step_raises (λ _, Raise "cannot identify image file") Ok
            "bm90IGFuIGltYWdl" "cannot identify image file") as Hraise
    by (left; reflexivity).
  split; [exact Hraise|].
  exact (proj2 (failed_upload_stores_nothing _ _ _ _ Hraise) initial None _).
Defined.

(** ** The registry *)

Lemma get_img_data_empty st :
  processed_images st = [] →
  get_img_data st = (JsonError "No images available" 404, st).
Proof. unfold get_img_data. by intros ->. Qed.

(** On a non-empty registry the read at the cursor succeeds. *)
Lemma get_img_data_nonempty st :
  processed_images st ≠ [] →
  ∃ image,
    processed_images st
      !! (current_image_index st `mod` length (processed_images st))%nat = Some image
    ∧ get_img_data st
      = (TextPlain (data (fields image)),
         State (processed_images st)
               (if py_in image (sent_images st) then sent_images st
                else sent_images st ++ [image])
               ((current_image_index st + 1) `mod` length (processed_images st))%nat
               (next_oid st)).
Proof.
  intros Hne. unfold get_img_data.
  destruct (processed_images st) as [|e l] eqn:Hl; [done|].
  destruct (lookup_lt_is_Some_2 (e :: l)
              (current_image_index st `mod` length (e :: l))%nat) as [image Himage].
  { apply Nat.mod_upper_bound. simpl. lia. }
  exists image. split; [done|]. cbv zeta. by rewrite Himage.
Qed.

Lemma get_img_data_processed st :
  processed_images (get_img_data st).2 = processed_images st.
Proof.
  destruct (decide (processed_images st = [])) as [He|Hne].
  - by rewrite get_img_data_empty.
  - destruct (get_img_data_nonempty st Hne) as (image & _ & ->). done.
Qed.

Lemma get_img_data_next_oid st : next_oid (get_img_data st).2 = next_oid st.
Proof.
  destruct (decide (processed_images st = [])) as [He|Hne].
  - by rewrite get_img_data_empty.
  - destruct (get_img_data_nonempty st Hne) as (image & _ & ->). done.
Qed.

Lemma polls_S n st : polls (S n) st = (get_img_data (polls n st)).2.
Proof. reflexivity. Qed.

Lemma polls_processed n st : processed_images (polls n st) = processed_images st.
Proof.
  induction n as [|n IH]; [done|]. by rewrite polls_S, get_img_data_processed.
Qed.

Lemma polls_cursor n st :
  processed_images st ≠ [] →
  current_image_index (polls n st)
  = if n is O then current_image_index st
    else ((current_image_index st + n) `mod` length (processed_images st))%nat.
Proof.
  intros Hne. induction n as [|n IH]; [done|].
  rewrite polls_S.
  destruct (get_img_data_nonempty (polls n st)) as (image & _ & ->);
    [by rewrite polls_processed|].
  simpl. rewrite polls_processed, IH. destruct n as [|n].
  - done.
  - rewrite Nat.Div0.add_mod_idemp_l. f_equal. lia.
Qed.

Lemma py_in_spec x l :
  py_in x l = true ↔ ∃ y, y ∈ l ∧ (oid y = oid x ∨ fields y = fields x).
Proof.
  unfold py_in. rewrite existsb_exists. split.
  - intros (y & Hy & Hor). exists y. split; [by apply list_elem_of_In|].
    apply orb_true_iff in Hor as [Hid|Heq].
    + left. by apply Nat.eqb_eq.
    + right. by apply bool_decide_eq_true in Heq.
  - intros (y & Hy & Hor). exists y. split; [by apply list_elem_of_In|].
    apply orb_true_iff. destruct Hor as [Hid|Heq].
    + left. by apply Nat.eqb_eq.
    + right. by apply bool_decide_eq_true.
Qed.

(** C2: store three images A, B, C, in that order, in an empty registry.
    Then for every n the call of [get_img_data] that follows n earlier
    calls returns the data of A, B or C according to n mod 3, so the calls
    return A, B, C, A, B, C, ... without end; before and after every call
    the stored sequence is still A, B, C and [status] reports a total
    of 3. *)
Theorem registry_cycles (k : nat) (A B C : image_record) (n : nat) :
  let st := store (store (store (cleared k) (data A) (timestamp A) (name A))
                         (data B) (timestamp B) (name B))
                  (data C) (timestamp C) (name C) in
  (get_img_data (polls n st)).1
    = TextPlain (match (n `mod` 3)%nat with
                 | 0%nat => data A
                 | 1%nat => data B
                 | _ => data C
                 end)
  ∧ fields <$> processed_images (polls n st) = [A; B; C]
  ∧ fields <$> processed_images (get_img_data (polls n st)).2 = [A; B; C]
  ∧ ∃ sent cur, (status (polls n st)).1 = JsonStatus 3 sent cur.
Proof.
  intros st.
  assert (fields <$> processed_images st = [A; B; C]) as Hst
    by (by destruct A, B, C).
  assert (processed_images st ≠ []) as Hne by done.
  assert (current_image_index (polls n st) `mod` 3 = n `mod` 3)%nat as Hcur.
  { rewrite polls_cursor by done. destruct n as [|n]; [reflexivity|].
    change (length (processed_images st)) with 3%nat.
    change (current_image_index st) with 0%nat.
    rewrite Nat.add_0_l. apply Nat.Div0.mod_mod. }
  split_and!.
  - destruct (get_img_data_nonempty (polls n st)) as (image & Himage & ->);
      [by rewrite polls_processed|].
    rewrite polls_processed in Himage.
    change (length (processed_images st)) with 3%nat in Himage.
    rewrite Hcur in Himage. cbn [fst]. f_equal.
    assert (n `mod` 3 < 3)%nat as Hlt by (apply Nat.mod_upper_bound; lia).
    destruct (n `mod` 3)%nat as [|[|[|m]]]; [..|lia];
      vm_compute in Himage; by inversion Himage.
  - by rewrite polls_processed.
  - by rewrite get_img_data_processed, polls_processed.
  - unfold status. simpl. rewrite polls_processed. by eexists _, _.
Qed.

(** C5: [get_img_data] answers "No images available" (404) exactly when
    no image is stored; when it does, the state is unchanged; and it does
    so right after [clear_images]. *)
Theorem next_empty_iff (st : state) :
  ((get_img_data st).1 = JsonError "No images available" 404
     ↔ processed_images st = [])
  ∧ ((get_img_data st).1 = JsonError "No images available" 404 →
       (get_img_data st).2 = st)
  ∧ get_img_data (clear_images st).2
    = (JsonError "No images available" 404, (clear_images st).2).
Proof.
  assert ((get_img_data st).1 = JsonError "No images available" 404
            → processed_images st = []) as Hempty.
  { intros Hresp. destruct (decide (processed_images st = [])) as [|Hne]; [done|].
    destruct (get_img_data_nonempty st Hne) as (image & _ & Heq).
    rewrite Heq in Hresp. done. }
  split_and!.
  - split; [done|]. intros He. by rewrite get_img_data_empty.
  - intros Hresp. rewrite get_img_data_empty; auto.
  - done.
Qed.

Lemma next_empty_iff_witness :
  (get_img_data initial).1 = JsonError "No images available" 404
  ∧ (get_img_data initial).2 = initial.
Proof.
  assert ((get_img_data initial).1 = JsonError "No images available" 404) as Hresp
    by reflexivity.
  split; [exact Hresp|].
  exact (proj1 (proj2 (next_empty_iff initial)) Hresp).
Defined.

(** Two uploads with the same data, timestamp and name: after the first
    delivery the second entry already passes the membership test, and after
    both deliveries [status] reports one delivered image. *)
Lemma delivered_by_identity_counterexample :
  let st := store (store initial "0x00" "2025-01-01T00:00:00" "a.png")
                  "0x00" "2025-01-01T00:00:00" "a.png" in
  let r := ImageRecord "0x00" "2025-01-01T00:00:00" "a.png" in
  processed_images st = [Entry 0 r; Entry 1 r]
  ∧ (get_img_data st).1 = TextPlain "0x00"
  ∧ sent_images (polls 1 st) = [Entry 0 r]
  ∧ py_in (Entry 1 r) (sent_images (polls 1 st)) = true
  ∧ (get_img_data (polls 1 st)).1 = TextPlain "0x00"
  ∧ sent_images (polls 2 st) = [Entry 0 r]
  ∧ (status (polls 2 st)).1 = JsonStatus 2 1 0
  ∧ ¬ delivered_by_identity.
Proof.
  split_and!; try reflexivity.
  intros Hclaim.
  destruct (Hclaim 0%nat (ImageRecord "0x00" "2025-01-01T00:00:00" "a.png")
              (Entry 0 (ImageRecord "0x00" "2025-01-01T00:00:00" "a.png"))
              (Entry 1 (ImageRecord "0x00" "2025-01-01T00:00:00" "a.png"))
              eq_refl ltac:(simpl; lia) eq_refl) as [Hin _].
  vm_compute in Hin. discriminate.
Qed.

Lemma equal_uploads_counted_once (k : nat) (r : image_record) :
  (status (polls 2 (store (store (cleared k) (data r) (timestamp r) (name r))
                          (data r) (timestamp r) (name r)))).1
  = JsonStatus 2 1 0.
Proof.
  set (r' := ImageRecord (data r) (timestamp r) (name r)).
  set (st := store _ _ _ _).
  assert (get_img_data st
          = (TextPlain (data r), State [Entry k r'; Entry (S k) r'] [Entry k r'] 1 (S (S k))))
    as Hfirst by reflexivity.
  assert (py_in (Entry (S k) r') [Entry k r'] = true) as Hin.
  { apply py_in_spec. exists (Entry k r'). split; [|by right].
    by apply list_elem_of_singleton. }
  assert (polls 2 st = State [Entry k r'; Entry (S k) r'] [Entry k r'] 0 (S (S k)))
    as Hsecond.
  { change (polls 2 st) with (get_img_data (get_img_data st).2).2.
    rewrite Hfirst. unfold get_img_data. cbn -[py_in]. by rewrite Hin. }
  by rewrite Hsecond.
Qed.

(** C3, as the code has it: the delivered list is kept by the membership
    test of Python lists, which compares content.  In a state where an
    object id names one object, the returned entry is appended exactly when
    the list holds no entry of equal content; once an entry is delivered,
    every entry of equal content passes the test; and for two stored
    entries of equal content, both delivered, [status] reports one
    delivered image. *)
Theorem delivered_by_equality (st : state) (image : entry) :
  processed_images st ≠ [] →
  processed_images st
    !! (current_image_index st `mod` length (processed_images st))%nat = Some image →
  (∀ y, y ∈ sent_images st → oid y = oid image → fields y = fields image) →
  (get_img_data st).1 = TextPlain (data (fields image))
  ∧ ((∃ y, y ∈ sent_images st ∧ fields y = fields image) →
       sent_images (get_img_data st).2 = sent_images st)
  ∧ ((∀ y, y ∈ sent_images st → fields y ≠ fields image) →
       sent_images (get_img_data st).2 = sent_images st ++ [image])
  ∧ (∀ e, fields e = fields image →
       py_in e (sent_images (get_img_data st).2) = true)
  ∧ (∀ (k : nat) (r : image_record),
       (status (polls 2 (store (store (cleared k) (data r) (timestamp r) (name r))
                               (data r) (timestamp r) (name r)))).1
       = JsonStatus 2 1 0).
Proof.
  intros Hne Himage Hobj.
  destruct (get_img_data_nonempty st Hne) as (image' & Himage' & ->).
  rewrite Himage in Himage'. inversion Himage'; subst image'. simpl.
  assert (py_in image (sent_images st) = true
          ↔ ∃ y, y ∈ sent_images st ∧ fields y = fields image) as Hin_iff.
  { rewrite py_in_spec. split; intros (y & Hy & Hor); exists y; (split; [done|]).
    - destruct Hor; auto.
    - by right. }
  split_and!.
  - done.
  - intros Hex. apply Hin_iff in Hex. by rewrite Hex.
  - intros Hall. destruct (py_in image (sent_images st)) eqn:Hin; [|done].
    destruct (proj1 Hin_iff eq_refl) as (y & Hy & Heq). by destruct (Hall y Hy).
  - intros e He. apply py_in_spec.
    destruct (py_in image (sent_images st)) eqn:Hin.
    + destruct (proj1 Hin_iff eq_refl) as (y & Hy & Heq).
      exists y. split; [done|]. right. congruence.
    + exists image. split; [|by right].
      apply elem_of_app. right. by apply list_elem_of_singleton.
  - apply equal_uploads_counted_once.
Qed.

Lemma delivered_by_equality_witness :
  let r := ImageRecord "0x00" "2025-01-01T00:00:00" "a.png" in
  let st := State [Entry 0 r; Entry 1 r] [Entry 0 r] 1 2 in
  sent_images (get_img_data st).2 = [Entry 0 r]
  ∧ py_in (Entry 1 r) (sent_images (get_img_data st).2) = true.
Proof.
  intros r st.
  assert (processed_images st ≠ []) as Hne by discriminate.
  assert (processed_images st
            !! (current_image_index st `mod` length (processed_images st))%nat
          = Some (Entry 1 r)) as Himage by reflexivity.
  assert (∀ y, y ∈ sent_images st → oid y = oid (Entry 1 r) →
               fields y = fields (Entry 1 r)) as Hobj.
  { intros y Hy. apply list_elem_of_singleton in Hy. subst y. reflexivity. }
  destruct (delivered_by_equality st (Entry 1 r) Hne Himage Hobj)
    as (_ & Hsame & _ & Hin & _).
  split.
  - apply Hsame. exists (Entry 0 r). split; [|reflexivity].
    by apply list_elem_of_singleton.
  - by apply Hin.
Defined.

(** ** Requests preserve the cursor invariant *)

Section requests.
Variable decode_image : string → exc image.
Variable resize_rgb : image → exc image.

Lemma upload_image_cases st request_json now :
  (upload_image decode_image resize_rgb st request_json now).2 = st
  ∨ ∃ processed_data name,
      (upload_image decode_image resize_rgb st request_json now).2
      = store st processed_data now name.
Proof.
  unfold upload_image.
  destruct request_json as [json|]; [|by left].
  destruct (req_image json) as [image_data|]; [|by left].
  destruct (process_image decode_image resize_rgb image_data) as [[|c s]|];
    [by left| |by left].
  right. by eexists _, _.
Qed.

Lemma cursor_inv_store st processed_data now name :
  cursor_inv st → cursor_inv (store st processed_data now name).
Proof.
  intros [Hlt Hzero]. unfold cursor_inv, store. simpl.
  rewrite length_app. simpl. split.
  - intros _. destruct (processed_images st) as [|e l] eqn:Hl.
    + rewrite Hzero by done. simpl. lia.
    + simpl in *. lia.
  - intros Happ. by apply app_nil in Happ as [_ ?].
Qed.

Lemma cursor_inv_get_img_data st :
  cursor_inv st → cursor_inv (get_img_data st).2.
Proof.
  intros Hinv. destruct (decide (processed_images st = [])) as [He|Hne].
  - by rewrite get_img_data_empty.
  - destruct (get_img_data_nonempty st Hne) as (image & _ & ->).
    unfold cursor_inv. simpl. split; [|done].
    intros Hpos. apply Nat.mod_upper_bound. lia.
Qed.

Lemma cursor_inv_handle st r :
  cursor_inv st → cursor_inv (handle decode_image resize_rgb st r).2.
Proof.
  intros Hinv. destruct r as [request_json now| | |]; simpl.
  - destruct (upload_image_cases st request_json now)
      as [->|(processed_data & name & ->)]; [done|].
    by apply cursor_inv_store.
  - by apply cursor_inv_get_img_data.
  - done.
  - split; simpl; [lia|done].
Qed.

Lemma cursor_inv_run rs : ∀ st,
  cursor_inv st → cursor_inv (run decode_image resize_rgb st rs).
Proof.
  induction rs as [|r rs IH]; intros st Hinv; simpl; [done|].
  by apply IH, cursor_inv_handle.
Qed.
End requests.

(** C8: after any sequence of upload, get-img-data, status and
    clear-images requests from the initial state, whatever the image
    library does, the cursor is below the number of stored images when
    there is one, and is 0 when there is none. *)
Theorem cursor_invariant_reachable
    (decode_image : string → exc image) (resize_rgb : image → exc image)
    (rs : list request) :
  let st := run decode_image resize_rgb initial rs in
  ((0 < length (processed_images st))%nat →
     (current_image_index st < length (processed_images st))%nat)
  ∧ (processed_images st = [] → current_image_index st = 0%nat).
Proof.
  apply (cursor_inv_run decode_image resize_rgb rs initial).
  split; simpl; [lia|done].
Qed.

(** C10: an upload leaves the state as it is or appends one record: then
    the earlier records, the cursor and the delivered list are unchanged.
    [get_img_data] leaves the stored sequence unchanged, so it changes at
    most the cursor and the delivered list, and the text it returns is the
    [data] of the stored record at the cursor. *)
Theorem registry_frame
    (decode_image : string → exc image) (resize_rgb : image → exc image)
    (st : state) :
  (∀ request_json now,
     let st' := (upload_image decode_image resize_rgb st request_json now).2 in
     st' = st
     ∨ ∃ e, processed_images st' = processed_images st ++ [e]
            ∧ timestamp (fields e) = now
            ∧ current_image_index st' = current_image_index st
            ∧ sent_images st' = sent_images st
            ∧ ∀ i e0, processed_images st !! i = Some e0 →
                      processed_images st' !! i = Some e0)
  ∧ processed_images (get_img_data st).2 = processed_images st
  ∧ next_oid (get_img_data st).2 = next_oid st
  ∧ (∀ body, (get_img_data st).1 = TextPlain body →
       ∃ e, processed_images st
              !! (current_image_index st `mod` length (processed_images st))%nat = Some e
            ∧ body = data (fields e)).
Proof.
  split_and!.
  - intros request_json now st'. subst st'.
    destruct (upload_image_cases decode_image resize_rgb st request_json now)
      as [->|(processed_data & name & ->)]; [by left|].
    right. eexists. split_and!; try reflexivity.
    intros i e0 Hi. simpl. by apply lookup_app_l_Some.
  - apply get_img_data_processed.
  - apply get_img_data_next_oid.
  - intros body Hbody. destruct (decide (processed_images st = [])) as [He|Hne].
    + by rewrite get_img_data_empty in Hbody.
    + destruct (get_img_data_nonempty st Hne) as (image & Himage & Heq).
      rewrite Heq in Hbody. inversion Hbody. by exists image.
Qed.

Lemma cursor_invariant_reachable_witness :
  let st := run (λ _, Raise "cannot identify image file") Ok initial
              [PostUpload (Some (UploadJson (Some "AAAA") None)) "2025-01-01T00:00:00";
               GetImgData; GetStatus; PostClearImages; GetImgData] in
  processed_images st = [] ∧ current_image_index st = 0%nat.
Proof.
  intros st.
  assert (processed_images st = []) as Hempty by reflexivity.
  split; [exact Hempty|].
  exact (proj2 (cursor_invariant_reachable
                  (λ _, Raise "cannot identify image file") Ok
                  [PostUpload (Some (UploadJson (Some "AAAA") None)) "2025-01-01T00:00:00";
                   GetImgData; GetStatus; PostClearImages; GetImgData]) Hempty).
Defined.

Lemma registry_frame_witness :
  let st := store (store initial "0xFF, 0x00" "2025-01-01T00:00:00" "image_1")
                  "0x35, 0x2B" "2025-01-01T00:05:00" "image_2" in
  (get_img_data st).1 = TextPlain "0xFF, 0x00"
  ∧ ∃ e, processed_images st !! 0%nat = Some e ∧ "0xFF, 0x00" = data (fields e).
Proof.
  intros st.
  assert ((get_img_data st).1 = TextPlain "0xFF, 0x00") as Hbody by reflexivity.
  split; [exact Hbody|].
  exact (proj2 (proj2 (proj2 (registry_frame (λ _, Raise "") Ok st))) _ Hbody).
Defined.

(** * Part V: further properties of the code *)

(** ** Quantisation and dithering of colours already in the palette *)

Lemma closest_palette_fixed p : p ∈ palette_keys → closest_palette_color p = p.
Proof.
  intros Hp.
  assert (Forall (λ q, closest_palette_color q = q) palette_keys) as Hall
    by (repeat constructor).
  rewrite Forall_forall in Hall. by apply Hall.
Qed.

(** Quantising twice is quantising once. *)
Theorem closest_palette_color_idempotent (rgb : pixel) :
  closest_palette_color (closest_palette_color rgb) = closest_palette_color rgb
  ∧ sq_dist (closest_palette_color rgb) (closest_palette_color (closest_palette_color rgb)) = 0.
Proof.
  rewrite closest_palette_fixed by apply closest_in_palette.
  split; [done|]. unfold sq_dist. rewrite !Z.sub_diag. done.
Qed.

Lemma alter_lookup_id {A} (f : A → A) (l : list A) i :
  (∀ a, l !! i = Some a → f a = a) → alter f i l = l.
Proof.
  revert i. induction l as [|a l IH]; intros [|i] Hf; simpl; [done..| |].
  - f_equal. by apply Hf.
  - f_equal. by apply IH.
Qed.

Lemma alter_px_id f y x (px : raster) :
  (∀ p, get_px px y x = Some p → f p = p) → alter_px f y x px = px.
Proof.
  intros Hf. unfold alter_px. apply alter_lookup_id. intros row Hrow.
  apply alter_lookup_id. intros p Hp. apply Hf. unfold get_px.
  by rewrite Hrow.
Qed.

Lemma get_px_Forall (P : pixel → Prop) (px : raster) y x p :
  Forall (Forall P) px → get_px px y x = Some p → P p.
Proof.
  intros Hall Hget. unfold get_px in Hget.
  destruct (px !! y) as [row|] eqn:Hrow; simpl in Hget; [|done].
  rewrite Forall_lookup in Hall. specialize (Hall _ _ Hrow).
  rewrite Forall_lookup in Hall. by eapply Hall.
Qed.

Lemma add_zero_palette p : p ∈ palette_keys → add_int16 (0, 0, 0) p = p.
Proof.
  intros Hp. destruct (palette_channels p Hp) as (Hr & Hg & Hb).
  destruct p as [[r g] b]. unfold add_int16, red, green, blue in *. simpl in *.
  rewrite !Z.add_0_r, !wrap16_small by (unfold int16; lia). done.
Qed.

(** On a buffer of palette colours a visit changes nothing. *)
Lemma dither_pixel_palette W H (px : raster) y x :
  Forall (Forall (λ p, p ∈ palette_keys)) px → dither_pixel W H px y x = px.
Proof.
  intros Hall. unfold dither_pixel.
  destruct (get_px px y x) as [old|] eqn:Hold; [|done].
  assert (old ∈ palette_keys) as Hin
    by exact (get_px_Forall (λ p, p ∈ palette_keys) px y x old Hall Hold).
  rewrite closest_palette_fixed by done.
  assert (pixel_sub old old = (0, 0, 0)) as ->
    by (unfold pixel_sub; by rewrite !Z.sub_diag).
  assert (∀ k, weighted (0, 0, 0) k = (0, 0, 0)) as Hw by done.
  cbv zeta. rewrite !Hw.
  assert (alter_px (λ _, old) y x px = px) as ->
    by (apply alter_px_id; congruence).
  assert (∀ y' x', alter_px (add_int16 (0, 0, 0)) y' x' px = px) as Hadd.
  { intros y' x'. apply alter_px_id. intros p Hp. apply add_zero_palette.
    exact (get_px_Forall (λ p, p ∈ palette_keys) px y' x' p Hall Hp). }
  repeat case_bool_decide; by rewrite ?Hadd.
Qed.

Lemma dither_loop_palette W H (px : raster) :
  Forall (Forall (λ p, p ∈ palette_keys)) px → dither_loop W H px = px.
Proof.
  intros Hall. unfold dither_loop. generalize (seq 0 H). intros ys.
  induction ys as [|y ys IH]; simpl; [done|].
  assert (dither_row W H px y = px) as ->; [|done].
  unfold dither_row. generalize (seq 0 W). intros xs.
  induction xs as [|x xs IHx]; simpl; [done|].
  by rewrite dither_pixel_palette.
Qed.

Lemma dither_palette_image (im : image) :
  Forall (Forall (λ p, p ∈ palette_keys)) (rows im) →
  apply_floyd_steinberg_dithering im = im.
Proof.
  intros Hall. destruct im as [W H px]. unfold apply_floyd_steinberg_dithering.
  simpl in *. rewrite dither_loop_palette by done. f_equal.
  induction Hall as [|row px Hrow Hall IH]; simpl; [done|]. f_equal; [|done].
  induction Hrow as [|p row Hp Hrow IHrow]; simpl; [done|].
  f_equal; [by apply clip_pixel_palette|done].
Qed.

(** An image whose pixels are all palette colours is returned unchanged
    by the dithering pass, whatever its size; hence, for a rectangular
    image, dithering the dithered image changes nothing. *)
Theorem dithering_idempotent (im : image) :
  (Forall (Forall (λ p, p ∈ palette_keys)) (rows im) →
     apply_floyd_steinberg_dithering im = im)
  ∧ (wf_image im →
       apply_floyd_steinberg_dithering (apply_floyd_steinberg_dithering im)
       = apply_floyd_steinberg_dithering im).
Proof.
  split; [apply dither_palette_image|].
  intros Hwf. by apply dither_palette_image, dithered_rows_palette.
Qed.

Lemma dithering_idempotent_witness :
  wf_image (solid 2 2 (200, 30, 90))
  ∧ apply_floyd_steinberg_dithering
      (apply_floyd_steinberg_dithering (solid 2 2 (200, 30, 90)))
    = apply_floyd_steinberg_dithering (solid 2 2 (200, 30, 90)).
Proof.
  split; [apply wf_solid|].
  exact (proj2 (dithering_idempotent (solid 2 2 (200, 30, 90))) (wf_solid _ _ _)).
Defined.

(** ** Round-robin delivery *)

(** The call of [get_img_data] that follows [n] earlier calls returns the
    entry at position (cursor + n) mod length: the images are served in
    stored order, cyclically, starting at the cursor.  So every stored
    image is returned by one of the next [length] calls. *)
Theorem round_robin (st : state) (n : nat) :
  processed_images st ≠ [] →
  (∃ e, processed_images st
          !! ((current_image_index st + n) `mod` length (processed_images st))%nat
        = Some e
        ∧ (get_img_data (polls n st)).1 = TextPlain (data (fields e)))
  ∧ (∀ i e, processed_images st !! i = Some e →
       ∃ m, (m < length (processed_images st))%nat
            ∧ (get_img_data (polls m st)).1 = TextPlain (data (fields e))).
Proof.
  intros Hne.
  assert (∀ n, ∃ e, processed_images st
          !! ((current_image_index st + n) `mod` length (processed_images st))%nat
        = Some e
        ∧ (get_img_data (polls n st)).1 = TextPlain (data (fields e))) as Hserve.
  { clear n. intros n.
    destruct (get_img_data_nonempty (polls n st)) as (image & Himage & ->);
      [by rewrite polls_processed|].
    rewrite polls_processed, polls_cursor in Himage by done.
    exists image. split; [|done]. destruct n as [|n].
    - by rewrite Nat.add_0_r.
    - by rewrite Nat.Div0.mod_mod in Himage. }
  split; [apply Hserve|].
  intros i e Hi.
  set (len := length (processed_images st)) in *.
  assert (i < len)%nat as Hlt by (by eapply lookup_lt_Some).
  set (c := (current_image_index st `mod` len)%nat).
  assert (c < len)%nat as Hc by (apply Nat.mod_upper_bound; lia).
  exists ((i + len - c) `mod` len)%nat. split; [apply Nat.mod_upper_bound; lia|].
  destruct (Hserve ((i + len - c) `mod` len)%nat) as (e' & He' & ->).
  replace ((current_image_index st + (i + len - c) `mod` len) `mod` len)%nat
    with i in He'; [congruence|].
  rewrite Nat.Div0.add_mod_idemp_r.
  rewrite <- Nat.Div0.add_mod_idemp_l. fold c.
  replace (c + (i + len - c))%nat with (i + 1 * len)%nat by lia.
  rewrite Nat.Div0.mod_add. by rewrite Nat.mod_small.
Qed.

Lemma round_robin_witness :
  let st := State [Entry 0 (ImageRecord "0xFF" "t0" "a");
                   Entry 1 (ImageRecord "0x00" "t1" "b");
                   Entry 2 (ImageRecord "0x35" "t2" "c")] [] 2 3 in
  ∃ m, (m < 3)%nat ∧ (get_img_data (polls m st)).1 = TextPlain "0x00".
Proof.
  intros st.
  assert (processed_images st ≠ []) as Hne by discriminate.
  exact (proj2 (round_robin st 0 Hne) 1%nat
           (Entry 1 (ImageRecord "0x00" "t1" "b")) eq_refl).
Defined.

(** ** The delivered list in reachable states *)

Lemma heap_inv_store st processed_data now name :
  heap_inv st → heap_inv (store st processed_data now name).
Proof.
  intros (Hnd & Hlt & Hsub & Hsent). unfold heap_inv, store. simpl. split_and!.
  - rewrite fmap_app. simpl. apply NoDup_app. split_and!; [done| |apply NoDup_singleton].
    intros k Hk Hk'. apply list_elem_of_singleton in Hk'. subst k.
    apply list_elem_of_fmap in Hk as (e & He & Hin). specialize (Hlt e Hin). lia.
  - intros e He. apply elem_of_app in He as [He|He].
    + specialize (Hlt e He). lia.
    + apply list_elem_of_singleton in He. subst e. simpl. lia.
  - intros e He. apply elem_of_app. left. by apply Hsub.
  - done.
Qed.

Lemma heap_inv_get_img_data st : heap_inv st → heap_inv (get_img_data st).2.
Proof.
  intros (Hnd & Hlt & Hsub & Hsent).
  destruct (decide (processed_images st = [])) as [He|Hne].
  { by rewrite get_img_data_empty. }
  destruct (get_img_data_nonempty st Hne) as (image & Himage & ->).
  unfold heap_inv. simpl. split_and!; [done|done|..].
  - destruct (py_in image (sent_images st)); [done|].
    intros e He. apply elem_of_app in He as [He|He]; [by apply Hsub|].
    apply list_elem_of_singleton in He. subst e.
    apply list_elem_of_lookup. eauto.
  - destruct (py_in image (sent_images st)) eqn:Hin; [done|].
    assert (∀ y, y ∈ sent_images st → fields y ≠ fields image) as Hfresh.
    { intros y Hy Heq. assert (py_in image (sent_images st) = true) as Hin'
        by (apply py_in_spec; eauto). congruence. }
    intros i j a b Hi Hj Heq.
    apply lookup_app_Some in Hi as [Hi|[Hil Hi]];
      apply lookup_app_Some in Hj as [Hj|[Hjl Hj]].
    + by eapply Hsent.
    + apply list_lookup_singleton_Some in Hj as [_ <-].
      destruct (Hfresh a); [|done]. apply list_elem_of_lookup. eauto.
    + apply list_lookup_singleton_Some in Hi as [_ <-].
      destruct (Hfresh b); [|done]. apply list_elem_of_lookup. eauto.
    + apply list_lookup_singleton_Some in Hi as [Hi _].
      apply list_lookup_singleton_Some in Hj as [Hj _]. lia.
Qed.

Lemma heap_inv_run decode_image resize_rgb rs : ∀ st,
  heap_inv st → heap_inv (run decode_image resize_rgb st rs).
Proof.
  induction rs as [|r rs IH]; intros st Hinv; simpl; [done|].
  apply IH. destruct r as [request_json now| | |]; simpl.
  - destruct (upload_image_cases decode_image resize_rgb st request_json now)
      as [->|(processed_data & name & ->)]; [done|].
    by apply heap_inv_store.
  - by apply heap_inv_get_img_data.
  - done.
  - unfold heap_inv. simpl. split_and!; [apply NoDup_nil_2|..].
    + intros e He. by apply elem_of_nil in He.
    + intros e He. by apply elem_of_nil in He.
    + intros i j a b Hi. done.
Qed.

Lemma heap_inv_initial : heap_inv initial.
Proof.
  unfold heap_inv. simpl. split_and!; [apply NoDup_nil_2|..].
  - intros e He. by apply elem_of_nil in He.
  - intros e He. by apply elem_of_nil in He.
  - intros i j a b Hi. done.
Qed.

Lemma heap_inv_sent_NoDup st : heap_inv st → NoDup (sent_images st).
Proof.
  intros (_ & _ & _ & Hsent). apply NoDup_alt. intros i j a Hi Hj.
  by eapply Hsent.
Qed.

(** In every state reached from the initial one, whatever the requests
    and whatever the image library does: each delivered entry is a stored
    entry, no two delivered entries have equal content, and the delivered
    count that [status] reports is at most the total it reports. *)
Theorem delivered_at_most_total
    (decode_image : string → exc image) (resize_rgb : image → exc image)
    (rs : list request) :
  let st := run decode_image resize_rgb initial rs in
  (∀ e, e ∈ sent_images st → e ∈ processed_images st)
  ∧ (∀ i j a b, sent_images st !! i = Some a → sent_images st !! j = Some b →
       fields a = fields b → i = j)
  ∧ ∃ total sent cur,
      (status st).1 = JsonStatus total sent cur ∧ (sent ≤ total)%nat.
Proof.
  intros st.
  pose proof (heap_inv_run decode_image resize_rgb rs initial heap_inv_initial)
    as Hinv. fold st in Hinv.
  pose proof (heap_inv_sent_NoDup st Hinv) as Hnd.
  destruct Hinv as (_ & _ & Hsub & Hsent).
  split_and!; [done|done|].
  eexists _, _, _. split; [reflexivity|].
  apply submseteq_length, NoDup_submseteq; done.
Qed.

Lemma delivered_at_most_total_witness :
  let st := run (λ _, Raise "cannot identify image file") Ok initial
              [GetImgData; PostUpload None "2025-01-01T00:00:00"; GetStatus] in
  ∃ total sent cur,
    (status st).1 = JsonStatus total sent cur ∧ (sent ≤ total)%nat.
Proof.
  exact (proj2 (proj2 (delivered_at_most_total
                  (λ _, Raise "cannot identify image file") Ok
                  [GetImgData; PostUpload None "2025-01-01T00:00:00"; GetStatus]))).
Defined.

(** ** Clearing restarts the server *)

Lemma py_in_shift k x l :
  py_in (shift_entry k x) (shift_entry k <$> l) = py_in x l.
Proof.
  induction l as [|y l IH]; [done|].
  unfold py_in in *. rewrite fmap_cons. cbn [existsb]. rewrite IH.
  f_equal. cbn [shift_entry oid fields]. f_equal.
  destruct (Nat.eqb_spec (oid y) (oid x)) as [Heq|Hne].
  - apply Nat.eqb_eq. lia.
  - apply Nat.eqb_neq. lia.
Qed.

Lemma get_img_data_shift k st :
  get_img_data (shift_state k st)
  = ((get_img_data st).1, shift_state k (get_img_data st).2).
Proof.
  destruct (decide (processed_images st = [])) as [He|Hne].
  - rewrite (get_img_data_empty st He).
    rewrite get_img_data_empty; [done|]. simpl. by rewrite He.
  - destruct (get_img_data_nonempty st Hne) as (image & Himage & ->).
    destruct (get_img_data_nonempty (shift_state k st)) as (image' & Himage' & ->).
    { simpl. by destruct (processed_images st). }
    simpl in Himage'. rewrite length_fmap, list_lookup_fmap, Himage in Himage'.
    simpl in Himage'. inversion Himage'; subst image'. simpl.
    rewrite py_in_shift, length_fmap. unfold shift_state. simpl. f_equal. f_equal.
    destruct (py_in image (sent_images st)); [done|].
    by rewrite fmap_app.
Qed.

Lemma store_shift k st processed_data now name :
  store (shift_state k st) processed_data now name
  = shift_state k (store st processed_data now name).
Proof. unfold store, shift_state. simpl. by rewrite fmap_app. Qed.

Lemma handle_shift decode_image resize_rgb k st r :
  handle decode_image resize_rgb (shift_state k st) r
  = ((handle decode_image resize_rgb st r).1,
     shift_state k (handle decode_image resize_rgb st r).2).
Proof.
  destruct r as [request_json now| | |]; simpl.
  - unfold upload_image.
    destruct request_json as [json|]; [|done].
    destruct (req_image json) as [image_data|]; [|done].
    destruct (process_image decode_image resize_rgb image_data) as [[|c s]|];
      [done| |done].
    cbv zeta. rewrite store_shift. simpl. by rewrite !length_fmap.
  - apply get_img_data_shift.
  - unfold status. simpl. by rewrite !length_fmap.
  - done.
Qed.

Lemma responses_shift decode_image resize_rgb k rs : ∀ st,
  responses decode_image resize_rgb (shift_state k st) rs
  = responses decode_image resize_rgb st rs.
Proof.
  induction rs as [|r rs IH]; intros st; simpl; [done|].
  rewrite handle_shift. simpl. by rewrite IH.
Qed.

(** After [clear_images] the server answers every later sequence of
    requests as a freshly started server does: nothing of the earlier
    uploads and deliveries shows in any response. *)
Theorem clear_restarts
    (decode_image : string → exc image) (resize_rgb : image → exc image)
    (st : state) (rs : list request) :
  responses decode_image resize_rgb (clear_images st).2 rs
  = responses decode_image resize_rgb initial rs
  ∧ (status (clear_images st).2).1 = JsonStatus 0 0 0.
Proof.
  split; [|done].
  change (clear_images st).2 with (shift_state (next_oid st) initial).
  apply responses_shift.
Qed.

(** ** Strings *)

Lemma append_cons c s t : String c s +:+ t = String c (s +:+ t).
Proof. reflexivity. Qed.

Lemma append_nil_l t : "" +:+ t = t.
Proof. reflexivity. Qed.

Lemma length_append s t :
  String.length (s +:+ t) = (String.length s + String.length t)%nat.
Proof.
  induction s as [|c s IH]; [done|].
  rewrite append_cons. simpl. by rewrite IH.
Qed.

(** ** Uploads *)

Lemma string_of_uint_inj d1 d2 :
  NilEmpty.string_of_uint d1 = NilEmpty.string_of_uint d2 → d1 = d2.
Proof.
  intros Heq. pose proof (NilEmpty.usu d1) as H1.
  rewrite Heq, NilEmpty.usu in H1. by inversion H1.
Qed.

(** Default names of different counts differ, so two uploads without a
    name into registries of different sizes never get the same name. *)
Theorem default_name_injective (n m : nat) :
  n ≠ m → default_name n ≠ default_name m.
Proof.
  unfold default_name. intros Hne Heq. apply Hne.
  apply (inj (String.app "image_")) in Heq.
  apply string_of_uint_inj in Heq.
  rewrite <- (DecimalNat.Unsigned.of_to n), <- (DecimalNat.Unsigned.of_to m).
  by rewrite Heq.
Qed.

Lemma default_name_injective_witness :
  default_name 9 = "image_9" ∧ default_name 10 = "image_10"
  ∧ default_name 9 ≠ default_name 10.
Proof.
  split; [reflexivity|]. split; [reflexivity|].
  exact (default_name_injective 9 10 ltac:(discriminate)).
Defined.

Lemma concat_cons_nonempty sep t toks :
  t ≠ "" → String.concat sep (t :: toks) ≠ "".
Proof.
  intros Ht. destruct t as [|c t]; [done|].
  destruct toks as [|t' toks]; simpl; [done|].
  rewrite append_cons. done.
Qed.

(** What [process_image] returns is never the empty string. *)
Lemma process_image_nonempty decode_image resize_rgb image_data s :
  process_image decode_image resize_rgb image_data = Some s → s ≠ "".
Proof.
  intros Hs.
  apply process_image_Some in Hs as (im0 & im & toks & _ & _ & Henc & ->).
  apply encode_pixels_spec in Henc as [_ Htoks].
  destruct (Htoks 0%nat 0%nat) as (rgb & _ & Ht);
    [apply Nat.lt_0_succ|apply Nat.lt_0_succ|].
  destruct toks as [|t toks]; [done|]. inversion Ht; subst t.
  unfold join. apply concat_cons_nonempty. done.
Qed.

(** An upload whose image the pipeline accepts: the response counts the
    images now stored, [status] reports that same total, the older
    images, the cursor and the delivered list are untouched, and the new
    image is the one returned after the images still due in the current
    cycle, that is by call number (length - cursor + 1) from now. *)
Theorem upload_then_delivery
    (decode_image : string → exc image) (resize_rgb : image → exc image)
    (st : state) (json : upload_json) (image_data processed_data now : string) :
  cursor_inv st →
  req_image json = Some image_data →
  process_image decode_image resize_rgb image_data = Some processed_data →
  let len := length (processed_images st) in
  let out := upload_image decode_image resize_rgb st (Some json) now in
  out.1 = JsonUploaded (len + 1)
  ∧ out.2 = store st processed_data now
              (default (default_name (len + 1)) (req_name json))
  ∧ (status out.2).1
    = JsonStatus (len + 1) (length (sent_images st)) (current_image_index st)
  ∧ (get_img_data (polls (len - current_image_index st) out.2)).1
    = TextPlain processed_data.
Proof.
  intros [Hlt Hzero] Himg Hproc len out.
  pose proof (process_image_nonempty _ _ _ _ Hproc) as Hne.
  assert (out = (JsonUploaded (len + 1),
                 store st processed_data now
                   (default (default_name (len + 1)) (req_name json)))) as Hout.
  { subst out. unfold upload_image. rewrite Himg, Hproc.
    destruct processed_data as [|c s]; [done|]. cbv zeta. f_equal.
    unfold store. simpl. by rewrite length_app. }
  rewrite Hout. cbn [fst snd]. split_and!; [done|done|..].
  - unfold status, store. simpl. by rewrite length_app.
  - set (st' := store _ _ _ _).
    assert (current_image_index st ≤ len)%nat as Hc.
    { destruct (processed_images st) as [|e l] eqn:Hl.
      - rewrite Hzero by done. lia.
      - subst len. pose proof (Hlt ltac:(simpl; lia)). lia. }
    destruct (proj1 (round_robin st' (len - current_image_index st)
                       ltac:(subst st'; unfold store; simpl;
                             by destruct (processed_images st))))
      as (e & He & ->).
    f_equal. subst st'. unfold store in He. simpl in He.
    rewrite length_app in He. simpl in He. fold len in He.
    replace (current_image_index st + (len - current_image_index st))%nat
      with len in He by lia.
    rewrite Nat.mod_small in He by lia.
    rewrite lookup_app_r in He by (subst len; lia).
    subst len. rewrite Nat.sub_diag in He. by inversion He.
Qed.

Lemma upload_then_delivery_witness :
  ∃ processed_data,
    process_image (λ _, Ok (solid 600 448 Black)) Ok "AAAA" = Some processed_data
    ∧ (upload_image (λ _, Ok (solid 600 448 Black)) Ok initial
         (Some (UploadJson (Some "AAAA") None)) "2025-01-01T00:00:00").1
      = JsonUploaded 1.
Proof.
  destruct (process_image_succeeds (λ _, Ok (solid 600 448 Black)) Ok "AAAA"
              (solid 600 448 Black) (solid 600 448 Black)
              eq_refl eq_refl (wf_solid _ _ _) eq_refl eq_refl) as [s Hs].
  exists s. split; [exact Hs|].
  assert (cursor_inv initial) as Hinv by (split; simpl; [lia|done]).
  exact (proj1 (upload_then_delivery (λ _, Ok (solid 600 448 Black)) Ok initial
                  (UploadJson (Some "AAAA") None) "AAAA" s "2025-01-01T00:00:00"
                  Hinv eq_refl Hs)).
Defined.

(** ** Codes and tokens *)

Lemma palette_key_cases (P : pixel → Prop) :
  Forall P palette_keys → ∀ p, p ∈ palette_keys → P p.
Proof. intros Hall p Hp. rewrite Forall_forall in Hall. by apply Hall. Qed.

Lemma dict_get_missing (d : list (pixel * Z)) key default :
  key ∉ map fst d → dict_get d key default = default.
Proof.
  induction d as [|[k v] d IH]; simpl; [done|]. intros Hnot.
  apply not_elem_of_cons in Hnot as [Hne Hnot].
  rewrite decide_False by done. by apply IH.
Qed.

Lemma dict_get_present (d : list (pixel * Z)) key default :
  key ∈ map fst d → (key, dict_get d key default) ∈ d.
Proof.
  induction d as [|[k v] d IH]; simpl; intros Hin.
  - by apply elem_of_nil in Hin.
  - case_decide as Hk.
    + subst k. apply elem_of_cons. by left.
    + apply elem_of_cons in Hin as [Heq|Hin]; [done|].
      apply elem_of_cons. right. by apply IH.
Qed.

(** The seven palette colours have seven different tokens, so a dithered
    image can be read back from its encoding; a colour outside the palette
    is encoded as White is, [0xFF]. *)
Theorem pixel_token_injective_on_palette (p q : pixel) :
  (p ∈ palette_keys → q ∈ palette_keys → pixel_token p = pixel_token q → p = q)
  ∧ (p ∉ palette_keys → pixel_token p = "0xFF" ∧ pixel_token p = pixel_token White).
Proof.
  split.
  - intros Hp Hq.
    assert (Forall (λ p, Forall (λ q, pixel_token p = pixel_token q → p = q)
                           palette_keys) palette_keys) as Hall
      by (apply (bool_decide_unpack _); vm_compute; exact I).
    rewrite Forall_forall in Hall. specialize (Hall p Hp).
    rewrite Forall_forall in Hall. exact (Hall q Hq).
  - intros Hp. unfold pixel_token, color_code.
    rewrite dict_get_missing by done. done.
Qed.

Lemma pixel_token_injective_on_palette_witness :
  pixel_token (0, 128, 0) = "0x35" ∧ pixel_token (12, 34, 56) = "0xFF".
Proof.
  split; [reflexivity|].
  refine (proj1 (proj2 (pixel_token_injective_on_palette (12, 34, 56) White) _)).
  intros Hin. repeat (apply elem_of_cons in Hin as [Hin|Hin]; [discriminate Hin|]).
  by apply elem_of_nil in Hin.
Defined.

Lemma pixel_token_length rgb : String.length (pixel_token rgb) = 4%nat.
Proof.
  destruct (pixel_token_is_token rgb) as (h1 & h2 & _ & _ & ->). done.
Qed.

Lemma length_concat_tokens (toks : list string) :
  Forall (λ t, String.length t = 4%nat) toks → toks ≠ [] →
  (String.length (String.concat ", " toks) + 2 = 6 * length toks)%nat.
Proof.
  induction 1 as [|t toks Ht Hall IH]; [done|]. intros _.
  destruct toks as [|t' toks].
  - simpl. lia.
  - change (String.concat ", " (t :: t' :: toks))
      with (t +:+ ", " +:+ String.concat ", " (t' :: toks)).
    rewrite !length_append, Ht. specialize (IH ltac:(done)).
    change (String.length ", ") with 2%nat. simpl length in *. lia.
Qed.

(** For a decoded and resized image of 448 rows of 600 pixels the
    pipeline succeeds; its text has 1612798 characters (268800 tokens of
    4, joined by 268799 separators of 2); and every token is the code the
    palette gives for the pixel, a palette colour, so the White fallback
    is not taken. *)
Theorem process_image_on_resized
    (decode_image : string → exc image) (resize_rgb : image → exc image)
    (image_data : string) (im0 im : image) :
  decode_image image_data = Ok im0 → resize_rgb im0 = Ok im →
  wf_image im → width im = 600%nat → height im = 448%nat →
  ∃ (s : string) (toks : list string),
    process_image decode_image resize_rgb image_data = Some s
    ∧ s = join ", " toks
    ∧ Z.of_nat (String.length s) = 1612798
    ∧ ∀ y x, (y < 448)%nat → (x < 600)%nat →
        ∃ rgb code,
          get_px (rows (apply_floyd_steinberg_dithering im)) y x = Some rgb
          ∧ (rgb, code) ∈ color_palette
          ∧ toks !! (y * 600 + x)%nat = Some ("0x" +:+ format_02X code).
Proof.
  intros Hdec Hres Hwf HW HH.
  destruct (process_image_succeeds _ _ _ _ _ Hdec Hres Hwf HW HH) as [s Hs].
  pose proof Hs as Hs'.
  apply process_image_Some in Hs' as (im0' & im' & toks & Hdec' & Hres' & Henc & ->).
  rewrite Hdec in Hdec'. inversion Hdec'; subst im0'.
  rewrite Hres in Hres'. inversion Hres'; subst im'.
  apply encode_pixels_spec in Henc as [Hlen Htoks].
  exists (join ", " toks), toks. split_and!; [exact Hs|reflexivity|..].
  - assert (Forall (λ t, String.length t = 4%nat) toks) as Hfour.
    { apply Forall_lookup. intros i t Hi.
      assert (i < 448 * 600)%nat as Hlt
        by (rewrite <- Hlen; eapply lookup_lt_Some; exact Hi).
      assert (i = (i `div` 600) * 600 + i `mod` 600)%nat as Hdiv
        by (rewrite Nat.mul_comm; apply Nat.div_mod_eq).
      destruct (Htoks (i `div` 600)%nat (i `mod` 600)%nat) as (rgb & _ & Ht).
      + apply Nat.Div0.div_lt_upper_bound. rewrite Nat.mul_comm. exact Hlt.
      + apply Nat.mod_upper_bound. discriminate.
      + rewrite <- Hdiv, Hi in Ht. inversion Ht. apply pixel_token_length. }
    assert (toks ≠ []) as Hne.
    { destruct (Htoks 0%nat 0%nat) as (rgb & _ & Ht);
        [apply Nat.lt_0_succ|apply Nat.lt_0_succ|].
      intros ->. discriminate Ht. }
    pose proof (length_concat_tokens toks Hfour Hne) as Hchars.
    unfold join. apply (f_equal Z.of_nat) in Hchars.
    rewrite Nat2Z.inj_add, Nat2Z.inj_mul, Hlen, Nat2Z.inj_mul in Hchars.
    change (Z.of_nat 2) with 2 in Hchars. change (Z.of_nat 6) with 6 in Hchars.
    change (Z.of_nat 448) with 448 in Hchars.
    change (Z.of_nat 600) with 600 in Hchars. lia.
  - intros y x Hy Hx. destruct (Htoks y x Hy Hx) as (rgb & Hpx & Ht).
    exists rgb, (color_code rgb). split_and!; [exact Hpx| |exact Ht].
    apply dict_get_present.
    exact (get_px_Forall (λ p, p ∈ palette_keys) _ y x rgb
             (dithered_rows_palette im Hwf) Hpx).
Qed.

Lemma process_image_on_resized_witness :
  ∃ s, process_image (λ _, Ok (solid 600 448 (90, 120, 30))) Ok "AAAA" = Some s
       ∧ Z.of_nat (String.length s) = 1612798.
Proof.
  destruct (process_image_on_resized (λ _, Ok (solid 600 448 (90, 120, 30))) Ok
              "AAAA" (solid 600 448 (90, 120, 30)) (solid 600 448 (90, 120, 30))
              eq_refl eq_refl (wf_solid _ _ _) eq_refl eq_refl)
    as (s & toks & Hs & _ & Hlen & _).
  exists s. auto.
Defined.

(** ** Error diffusion *)




(** ** The wake-up schedule *)

(** For every reading of the clock before the last representable day the
    interval is defined and lies between 1 and 32 hours.  From 08:00 up to
    20:00 it is one hour.  Otherwise it ends within the second before
    08:00 of the next calendar day: 8 to 12 hours from 20:00 on, and, since
    the date is advanced also after midnight, 24 to 32 hours before
    08:00. *)
Theorem wakeup_interval_range (now : datetime) :
  valid_datetime now → ordinal now < max_ordinal →
  ∃ interval,
    wakeup_interval now = Ok interval
    ∧ 3600 ≤ interval ≤ 115200
    ∧ (morning_time ≤ micros now < evening_time ↔ interval = 3600)
    ∧ (¬ (morning_time ≤ micros now < evening_time) →
         let next_8am := 86400 * 1000000 + morning_time in
         next_8am - 1000000 < micros now + interval * 1000000 ≤ next_8am)
    ∧ (evening_time ≤ micros now → 28800 ≤ interval ≤ 43200)
    ∧ (micros now < morning_time → 86400 ≤ interval ≤ 115200).
Proof.
  intros [Hord Hmic] Hmax. unfold wakeup_interval. cbv zeta.
  unfold morning_time, evening_time, max_ordinal in *.
  case_bool_decide as Hday.
  - exists 3600. split_and!; try done; lia.
  - rewrite bool_decide_eq_true_2 by lia. eexists. split; [reflexivity|].
    cbn [ordinal micros].
    set (delta := (ordinal now + 1 - ordinal now) * (86400 * 1000000)
                  + (8 * 3600 * 1000000 - micros now)).
    pose proof (Z.quot_rem' delta 1000000) as Hqr.
    pose proof (Z.rem_bound_pos delta 1000000 ltac:(subst delta; lia) ltac:(lia)) as Hr.
    assert (delta = 115200000000 - micros now) as Hdelta by (subst delta; lia).
    split_and!; lia.
Qed.

Lemma wakeup_interval_range_witness :
  wakeup_interval (DateTime 739000 (2 * 3600 * 1000000)) = Ok 108000
  ∧ ∃ interval, wakeup_interval (DateTime 739000 (2 * 3600 * 1000000)) = Ok interval
                ∧ 3600 ≤ interval ≤ 115200.
Proof.
  split; [reflexivity|].
  destruct (wakeup_interval_range (DateTime 739000 (2 * 3600 * 1000000)))
    as (interval & Hrun & Hrange & _).
  - unfold valid_datetime, max_ordinal. simpl. lia.
  - unfold max_ordinal. simpl. lia.
  - exists interval. auto.
Defined.

(** ** Splitting strings *)

Lemma append_assoc s t u : (s +:+ t) +:+ u = s +:+ (t +:+ u).
Proof.
  induction s as [|c s IH]; [done|]. by rewrite !append_cons, IH.
Qed.

Lemma prefix_append sep t : String.prefix sep (sep +:+ t) = true.
Proof.
  induction sep as [|a sep IH]; [by destruct t|].
  rewrite append_cons. simpl. by destruct (ascii_dec a a).
Qed.

Lemma prefix_inv sep : ∀ s, String.prefix sep s = true → ∃ s', s = sep +:+ s'.
Proof.
  induction sep as [|a sep IH]; intros s Hs; [by exists s|].
  destruct s as [|b s]; [done|]. simpl in Hs.
  destruct (ascii_dec a b) as [<-|]; [|done].
  destruct (IH s Hs) as [s' ->]. by exists s'.
Qed.

Lemma prefix_append_long sep : ∀ s r,
  (String.length sep ≤ String.length s)%nat →
  String.prefix sep (s +:+ r) = String.prefix sep s.
Proof.
  induction sep as [|a sep IH]; intros s r Hlen.
  - destruct (s +:+ r); by destruct s.
  - destruct s as [|b s]; [simpl in Hlen; lia|].
    rewrite append_cons. simpl. destruct (ascii_dec a b); [|done].
    apply IH. simpl in Hlen. lia.
Qed.

Lemma contains_prefix sep s : String.prefix sep s = true → contains sep s = true.
Proof. intros Hpre. destruct s; simpl in *; by rewrite Hpre. Qed.

Lemma contains_append sep base t : contains sep (base +:+ sep +:+ t) = true.
Proof.
  induction base as [|c base IH].
  - rewrite append_nil_l. apply contains_prefix, prefix_append.
  - rewrite append_cons. simpl. rewrite IH. apply orb_true_r.
Qed.

Lemma split_go_nonempty sep : ∀ s skip, split_go sep skip s ≠ [].
Proof.
  induction s as [|c s IH]; intros skip; cbn [split_go]; [discriminate|].
  destruct skip as [|k]; [|apply IH].
  destruct (String.prefix sep (String c s)); [discriminate|].
  destruct (split_go sep 0 s); discriminate.
Qed.

(** A string without the separator is one piece. *)
Lemma split_go_absent sep : ∀ t, contains sep t = false → split_go sep 0 t = [t].
Proof.
  induction t as [|c t IH]; intros Hno; [done|].
  cbn [contains] in Hno. apply orb_false_iff in Hno as [Hpre Hno].
  cbn [split_go]. rewrite Hpre, (IH Hno). done.
Qed.

Lemma split_go_skip sep s : ∀ u,
  split_go sep (String.length u) (u +:+ s) = split_go sep 0 s.
Proof.
  induction u as [|c u IH]; [done|]. rewrite append_cons. simpl. apply IH.
Qed.

(** A separator at the front yields an empty first piece. *)
Lemma split_go_front a sep t :
  split_go (String a sep) 0 (String a sep +:+ t)
  = "" :: split_go (String a sep) 0 t.
Proof.
  pose proof (prefix_append (String a sep) t) as Hpre.
  rewrite append_cons in *. cbn [split_go]. rewrite Hpre. f_equal.
  cbn [String.length]. rewrite Nat.sub_succ, Nat.sub_0_r.
  apply split_go_skip.
Qed.

(** No occurrence of [albums/] overlaps another one: after the [a] no
    other [a] follows. *)
Lemma albums_no_overlap b t :
  b ≠ "" → (String.length b < 7)%nat →
  String.prefix "albums/" (b +:+ "albums/" +:+ t) = false.
Proof.
  intros Hne Hlen.
  destruct b as [|c b]; [done|]. clear Hne.
  rewrite append_cons. cbn [String.prefix].
  destruct (ascii_dec "a" c) as [<-|]; [|done].
  do 6 (destruct b as [|c b];
        [rewrite append_nil_l, !append_cons; reflexivity|];
        rewrite append_cons; cbn [String.prefix];
        match goal with
        | |- context [ascii_dec ?a c] => destruct (ascii_dec a c) as [<-|]; [|done]
        end).
  simpl in Hlen. lia.
Qed.

(** Splitting at [albums/] a string that has an occurrence followed by
    [t]: the pieces are some pieces, at least one, and then those of [t]. *)
Lemma split_albums_through t (n : nat) : ∀ base,
  (String.length base ≤ n)%nat →
  ∃ pieces, pieces ≠ []
    ∧ split "albums/" (base +:+ "albums/" +:+ t) = pieces ++ split "albums/" t.
Proof.
  unfold split. induction n as [|n IH]; intros base Hlen.
  - destruct base as [|c base]; [|simpl in Hlen; lia].
    rewrite append_nil_l. exists [""]. split; [done|]. apply split_go_front.
  - destruct base as [|c base].
    { rewrite append_nil_l. exists [""]. split; [done|]. apply split_go_front. }
    destruct (String.prefix "albums/" (String c base +:+ "albums/" +:+ t)) eqn:Hpre.
    + destruct (decide (String.length (String c base) < 7)%nat) as [Hshort|Hlong].
      { by rewrite albums_no_overlap in Hpre. }
      rewrite prefix_append_long in Hpre by (simpl in *; lia).
      apply prefix_inv in Hpre as [b' Hb'].
      destruct (IH b') as (pieces & Hne & Heq).
      { apply (f_equal String.length) in Hb'. rewrite length_append in Hb'.
        simpl in Hb', Hlen. lia. }
      exists ("" :: pieces). split; [done|].
      rewrite Hb', append_assoc, split_go_front, Heq. done.
    + destruct (IH base) as (pieces & Hne & Heq); [simpl in Hlen; lia|].
      rewrite (append_cons c base) in Hpre. rewrite (append_cons c base).
      cbn [split_go]. rewrite Hpre, Heq.
      destruct pieces as [|p pieces]; [done|].
      exists (String c p :: pieces). done.
Qed.

(** The first piece of a split at [?] has no [?], and is [id] itself
    when [id] has none and is followed by nothing or by a [?]. *)
Lemma prefix_question c s : String.prefix "?" (String c s) = bool_decide ("?"%char = c).
Proof.
  cbn [String.prefix]. destruct (ascii_dec "?" c) as [Heq|Hne].
  - rewrite bool_decide_eq_true_2 by done. by destruct s.
  - by rewrite bool_decide_eq_false_2.
Qed.

Lemma split_question_head : ∀ s,
  ∃ h pieces, split "?" s = h :: pieces ∧ contains "?" h = false.
Proof.
  unfold split. induction s as [|c s IH]; [by exists "", []|].
  destruct IH as (h & pieces & Heq & Hno). cbn [split_go].
  destruct (String.prefix "?" (String c s)) eqn:Hpre.
  - exists "". eexists. split; reflexivity.
  - rewrite Heq. exists (String c h), pieces. split; [done|].
    cbn [contains]. rewrite Hno, orb_false_r.
    rewrite prefix_question in *. done.
Qed.

Lemma split_question_id q : ∀ id,
  contains "?" id = false →
  split "?" id = [id] ∧ ∃ pieces, split "?" (id +:+ "?" +:+ q) = id :: pieces.
Proof.
  intros id Hno. split; [by apply split_go_absent|]. unfold split.
  induction id as [|c id IH].
  - rewrite append_nil_l. rewrite split_go_front. by eexists.
  - cbn [contains] in Hno. apply orb_false_iff in Hno as [Hpre Hno].
    destruct (IH Hno) as (pieces & Heq).
    rewrite (append_cons c id). cbn [split_go].
    rewrite prefix_question in *. rewrite Hpre, Heq. by eexists.
Qed.

(** ** The album id of a share URL *)

(** [get_album_id_from_url] returns [None] when the request raises or the
    final URL has no [albums/]; an id it returns never contains a [?];
    and when the final URL is [base albums/ id] or [base albums/ id ? query],
    with no further [albums/] after that occurrence and no [?] in [id],
    it returns exactly [id], whatever [base] is. *)
Theorem get_album_id_from_url_spec
    (follow_redirects : string → exc string) (share_url : string) :
  (∀ msg, follow_redirects share_url = Raise msg →
     get_album_id_from_url follow_redirects share_url = None)
  ∧ (∀ final_url, follow_redirects share_url = Ok final_url →
       contains "albums/" final_url = false →
       get_album_id_from_url follow_redirects share_url = None)
  ∧ (∀ id, get_album_id_from_url follow_redirects share_url = Some id →
       contains "?" id = false
       ∧ ∃ final_url, follow_redirects share_url = Ok final_url
                      ∧ contains "albums/" final_url = true)
  ∧ (∀ base id rest,
       follow_redirects share_url = Ok (base +:+ "albums/" +:+ id +:+ rest) →
       contains "albums/" (id +:+ rest) = false →
       contains "?" id = false →
       rest = "" ∨ (∃ query, rest = "?" +:+ query) →
       get_album_id_from_url follow_redirects share_url = Some id).
Proof.
  unfold get_album_id_from_url. split_and!.
  - by intros msg ->.
  - by intros final_url -> ->.
  - intros id Hid. destruct (follow_redirects share_url) as [final_url|]; [|done].
    destruct (contains "albums/" final_url) eqn:Hc; [|done].
    cbv zeta in Hid. inversion Hid as [Hid']. split; [|by exists final_url].
    destruct (split_question_head
                (default "" (last (split "albums/" final_url))))
      as (h & pieces & -> & Hno). done.
  - intros base id rest -> Hafter Hid Hrest.
    rewrite contains_append. cbv zeta. f_equal.
    destruct (split_albums_through (id +:+ rest) (String.length base) base)
      as (pieces & Hne & ->); [done|].
    assert (split "albums/" (id +:+ rest) = [id +:+ rest]) as ->
      by (by apply split_go_absent).
    rewrite last_snoc. cbn [default from_option Datatypes.id].
    destruct Hrest as [->|[query ->]].
    + destruct (split_question_id "" id Hid) as [Hone _].
      replace (id +:+ "") with id
        by (clear; induction id as [|c id IH]; [done|by rewrite append_cons, <- IH]).
      by rewrite Hone.
    + destruct (split_question_id query id Hid) as [_ [pieces' ->]]. done.
Qed.

Lemma get_album_id_from_url_spec_witness :
  get_album_id_from_url
    (λ _, Ok "https://photos.google.com/share/AF1QipN?key=dGVzdA")
    "https://photos.app.goo.gl/xyz"
  = None
  ∧ get_album_id_from_url
      (λ _, Ok "https://photos.google.com/albums/share/albums/AF1QipN?key=dGVzdA")
      "https://photos.app.goo.gl/xyz"
    = Some "AF1QipN".
Proof.
  split.
  - refine (proj1 (proj2 (get_album_id_from_url_spec _ _)) _ eq_refl _).
    reflexivity.
  - exact (proj2 (proj2 (proj2 (get_album_id_from_url_spec
             (λ _, Ok "https://photos.google.com/albums/share/albums/AF1QipN?key=dGVzdA")
             "https://photos.app.goo.gl/xyz")))
             "https://photos.google.com/albums/share/" "AF1QipN" "?key=dGVzdA"
             eq_refl eq_refl eq_refl (or_intror (ex_intro _ "key=dGVzdA" eq_refl))).
Defined.

(** ** Google Photos: the access token *)

(** A token that is cached, not empty and not yet expired is returned as
    it is, with the object unchanged and whatever the token endpoint
    would answer: no request is made.  Without such a token and without a
    refresh token the result is [None], again without a request. *)
Lemma get_access_token_cached post_token (self : sync) (now now' : Z) token expires :
  access_token self = Some token → token ≠ "" →
  token_expires self = Some expires → now < expires →
  get_access_token post_token self now now' = (Some token, self).
Proof.
  intros Htok Hne Hexp Hlt. unfold get_access_token.
  rewrite Htok, Hexp. destruct token as [|c token]; [done|].
  cbn [truthy andb]. by rewrite bool_decide_eq_true_2.
Qed.

(** After a refresh that yields a non-empty token, the object holds that
    token with expiry (expires_in - 60) seconds after the clock reading,
    3600 standing for a missing [expires_in]; the other attributes are
    unchanged; and every later call before that expiry returns the same
    token and leaves the object unchanged, whatever the token endpoint
    would answer, so without a request. *)
Theorem refreshed_token_is_reused
    (post_token : option string → option string → option string → exc token_data)
    (self : sync) (now now' : Z) (token : string) (expires_in : option Z) :
  truthy (access_token self)
    && match token_expires self with
       | Some expires => bool_decide (now < expires)
       | None => false
       end = false →
  truthy (refresh_token self) = true →
  post_token (client_id self) (client_secret self) (refresh_token self)
    = Ok (TokenData (Some token) expires_in) →
  token ≠ "" →
  0 ≤ now' + (default 3600 expires_in - 60) * 1000000 < datetime_end →
  let expires := now' + (default 3600 expires_in - 60) * 1000000 in
  let self' := (get_access_token post_token self now now').2 in
  (get_access_token post_token self now now').1 = Some token
  ∧ self' = Sync (client_id self) (client_secret self) (refresh_token self)
                 (album_id self) (Some token) (Some expires)
  ∧ ∀ post_token' later later', later < expires →
      get_access_token post_token' self' later later' = (Some token, self').
Proof.
  intros Hcache Hrefresh Hpost Hne Hrange expires self'.
  assert (get_access_token post_token self now now'
          = (Some token,
             Sync (client_id self) (client_secret self) (refresh_token self)
                  (album_id self) (Some token) (Some expires))) as Hrun.
  { unfold get_access_token. rewrite Hcache, Hrefresh, Hpost.
    cbn [negb td_access_token td_expires_in]. cbv zeta.
    by rewrite bool_decide_eq_true_2. }
  subst self'. rewrite Hrun. cbn [fst snd]. split_and!; [done|done|].
  intros post_token' later later' Hlater.
  by apply get_access_token_cached with (expires := expires).
Qed.

Lemma refreshed_token_is_reused_witness :
  let post_token := λ _ _ _, Ok (TokenData (Some "ya29.a0") (Some 3599)) in
  let self := Sync (Some "cid") (Some "secret") (Some "1//0g") (Some "album") None None in
  (get_access_token post_token self 63900000000000000 63900000000000500).1
    = Some "ya29.a0"
  ∧ token_expires (get_access_token post_token self 63900000000000000 63900000000000500).2
    = Some 63900003539000500.
Proof.
  intros post_token self.
  destruct (refreshed_token_is_reused post_token self 63900000000000000
              63900000000000500 "ya29.a0" (Some 3599)
              eq_refl eq_refl eq_refl ltac:(discriminate)
              ltac:(unfold datetime_end; simpl; lia)) as (Htok & Hself & _).
  split; [exact Htok|]. rewrite Hself. reflexivity.
Defined.

(** Without a usable cached token and without a refresh token nothing is
    requested and nothing changes. *)
Lemma get_access_token_no_refresh post_token (self : sync) (now now' : Z) :
  truthy (access_token self) = false → truthy (refresh_token self) = false →
  get_access_token post_token self now now' = (None, self).
Proof.
  intros Htok Hrefresh. unfold get_access_token. by rewrite Htok, Hrefresh.
Qed.

(** ** Google Photos: the sync loop *)

Section sync_facts.
Variable http_get : string → exc (Z * string).
Variable b64encode : string → string.
Variable process_image_callback : string → option string.
Variable clock : nat → string.

Local Abbreviation synced_from :=
  (synced_by http_get b64encode process_image_callback clock).

Lemma download_photo_id photo downloaded :
  download_photo http_get b64encode photo = Some downloaded →
  item_id photo = Some (id downloaded).
Proof.
  unfold download_photo. intros Hd.
  destruct (baseUrl photo) as [base_url|]; [|done].
  destruct (http_get _) as [[status content]|]; [|done].
  destruct status as [|[?|?|]|]; try done.
  repeat match goal with
         | H : context [match ?p with xI _ => _ | xO _ => _ | xH => _ end] |- _ =>
             destruct p; try done
         end.
  destruct (item_id photo) as [google_id|]; [|done]. by inversion Hd.
Qed.

Lemma sync_loop_spec photos : ∀ i processed,
  ∃ added,
    sync_loop http_get b64encode process_image_callback clock i photos processed
    = processed ++ added
    ∧ (length added ≤ length photos)%nat
    ∧ (sp_google_id <$> added) `sublist_of` omap item_id photos
    ∧ (∀ r, r ∈ added →
         ∃ k photo, photos !! k = Some photo ∧ synced_from (i + k) photo r)
    ∧ (∀ k photo r, photos !! k = Some photo → synced_from (i + k) photo r →
         r ∈ added).
Proof.
  induction photos as [|photo photos IH]; intros i processed.
  { exists []. rewrite app_nil_r. split_and!; try done.
    - intros r Hr. by apply elem_of_nil in Hr. }
  cbn [sync_loop].
  destruct (download_photo http_get b64encode photo) as [downloaded|] eqn:Hd.
  - pose proof (download_photo_id _ _ Hd) as Hid.
    destruct (process_image_callback (base64 downloaded)) as [[|c s]|] eqn:Hcb.
    + destruct (IH (S i) processed) as (added & -> & Hlen & Hsub & Hsound & Hcomplete).
      exists added. split_and!; [done|simpl; lia| | |].
      * cbn [omap list_omap]. rewrite Hid. by apply sublist_cons.
      * intros r Hr. destruct (Hsound r Hr) as (k & photo' & Hk & Hfrom).
        exists (S k), photo'. split; [done|].
        by replace (i + S k)%nat with (S i + k)%nat by lia.
      * intros [|k] photo' r Hk Hfrom.
        -- simpl in Hk. inversion Hk; subst photo'.
           destruct Hfrom as (d & Hd' & Hcb' & Hne & _).
           rewrite Hd in Hd'. inversion Hd'; subst d.
           rewrite Hcb in Hcb'. inversion Hcb' as [Hdata]. by rewrite <- Hdata in Hne.
        -- apply (Hcomplete k photo'); [done|].
           by replace (S i + k)%nat with (i + S k)%nat by lia.
    + destruct (IH (S i) (processed ++ [Synced (String c s) (clock i)
                  (filename downloaded) (id downloaded) (creation_time downloaded)]))
        as (added & -> & Hlen & Hsub & Hsound & Hcomplete).
      eexists (_ :: added). split_and!.
      * by rewrite <- app_assoc.
      * simpl. lia.
      * cbn [omap list_omap]. rewrite Hid. rewrite fmap_cons. by apply sublist_skip.
      * intros r Hr. apply elem_of_cons in Hr as [->|Hr].
        -- exists 0%nat, photo. split; [done|]. rewrite Nat.add_0_r.
           exists downloaded. by split_and!.
        -- destruct (Hsound r Hr) as (k & photo' & Hk & Hfrom).
           exists (S k), photo'. split; [done|].
           by replace (i + S k)%nat with (S i + k)%nat by lia.
      * intros [|k] photo' r Hk Hfrom.
        -- simpl in Hk. inversion Hk; subst photo'.
           destruct Hfrom as (d & Hd' & Hcb' & Hne & Hr).
           rewrite Hd in Hd'. inversion Hd'; subst d.
           rewrite Hcb in Hcb'. inversion Hcb' as [Hdata].
           rewrite Hr, <- Hdata, Nat.add_0_r. apply elem_of_cons. by left.
        -- apply elem_of_cons. right. apply (Hcomplete k photo'); [done|].
           by replace (S i + k)%nat with (i + S k)%nat by lia.
    + destruct (IH (S i) processed) as (added & -> & Hlen & Hsub & Hsound & Hcomplete).
      exists added. split_and!; [done|simpl; lia| | |].
      * cbn [omap list_omap]. rewrite Hid. by apply sublist_cons.
      * intros r Hr. destruct (Hsound r Hr) as (k & photo' & Hk & Hfrom).
        exists (S k), photo'. split; [done|].
        by replace (i + S k)%nat with (S i + k)%nat by lia.
      * intros [|k] photo' r Hk Hfrom.
        -- simpl in Hk. inversion Hk; subst photo'.
           destruct Hfrom as (d & Hd' & Hcb' & _).
           rewrite Hd in Hd'. inversion Hd'; subst d. congruence.
        -- apply (Hcomplete k photo'); [done|].
           by replace (S i + k)%nat with (i + S k)%nat by lia.
  - destruct (IH (S i) processed) as (added & -> & Hlen & Hsub & Hsound & Hcomplete).
    exists added. split_and!; [done|simpl; lia| | |].
    * cbn [omap list_omap]. destruct (item_id photo); [by apply sublist_cons|done].
    * intros r Hr. destruct (Hsound r Hr) as (k & photo' & Hk & Hfrom).
      exists (S k), photo'. split; [done|].
      by replace (i + S k)%nat with (S i + k)%nat by lia.
    * intros [|k] photo' r Hk Hfrom.
      -- simpl in Hk. inversion Hk; subst photo'.
         destruct Hfrom as (d & Hd' & _). congruence.
      -- apply (Hcomplete k photo'); [done|].
         by replace (S i + k)%nat with (i + S k)%nat by lia.
Qed.
End sync_facts.

(** [sync_album_photos] returns no more records than the album listing
    has photos; the Google ids of the records follow the order of the
    listing; every record comes from a photo of the listing that was
    downloaded and accepted by the callback, and carries the clock
    reading of its iteration; and every photo that downloads and is
    accepted has its record, whether or not others before it failed. *)
Theorem sync_album_photos_spec
    (post_token : option string → option string → option string → exc token_data)
    (post_search : string → string → Z → exc (Z * exc (option (list photo_item))))
    (http_get : string → exc (Z * string)) (b64encode : string → string)
    (self : sync) (now now' : Z)
    (process_image_callback : string → option string) (clock : nat → string)
    (max_photos : Z) :
  let photos := (get_album_photos post_token post_search self now now' max_photos).1 in
  let result := (sync_album_photos post_token post_search http_get b64encode
                   self now now' process_image_callback clock max_photos).1 in
  (length result ≤ length photos)%nat
  ∧ (sp_google_id <$> result) `sublist_of` omap item_id photos
  ∧ (∀ r, r ∈ result →
       ∃ k photo, photos !! k = Some photo
         ∧ synced_by http_get b64encode process_image_callback clock k photo r)
  ∧ (∀ k photo r, photos !! k = Some photo →
       synced_by http_get b64encode process_image_callback clock k photo r →
       r ∈ result)
  ∧ (sync_album_photos post_token post_search http_get b64encode
       self now now' process_image_callback clock max_photos).2
    = (get_album_photos post_token post_search self now now' max_photos).2.
Proof.
  intros photos result.
  assert (result = sync_loop http_get b64encode process_image_callback clock 0 photos []
          ∧ (sync_album_photos post_token post_search http_get b64encode
               self now now' process_image_callback clock max_photos).2
            = (get_album_photos post_token post_search self now now' max_photos).2)
    as [Hresult Hstate].
  { subst result photos. unfold sync_album_photos.
    destruct (get_album_photos post_token post_search self now now' max_photos)
      as [[|photo photos] self']; done. }
  destruct (sync_loop_spec http_get b64encode process_image_callback clock photos 0 [])
    as (added & Hrun & Hlen & Hsub & Hsound & Hcomplete).
  rewrite app_nil_l in Hrun. rewrite Hresult, Hrun.
  split_and!; done.
Qed.

Lemma sync_album_photos_spec_witness :
  let self := Sync (Some "cid") (Some "secret") (Some "1//0g") (Some "album")
                   (Some "ya29.a0") (Some 63900003539000500) in
  let photos := [PhotoItem (Some "https://lh3.example/a") (Some "a.jpg") None (Some "id-a");
                 PhotoItem None (Some "b.jpg") None (Some "id-b");
                 PhotoItem (Some "https://lh3.example/c") None (Some None) (Some "id-c")] in
  let post_search := λ _ _ _, Ok (200, Ok (Some photos)) in
  let http_get := λ url : string, Ok (200, url) in
  let callback := λ text : string, Some ("0xFF" +:+ text) in
  let clock := λ i : nat, "2025-01-01T00:00:00" in
  Synced "0xFFhttps://lh3.example/c=w600-h448-c" "2025-01-01T00:00:00"
         "unknown.jpg" "id-c" ""
  ∈ (sync_album_photos (λ _ _ _, Raise "offline") post_search http_get (λ content, content)
       self 63900000000000000 63900000000000000 callback clock 10).1.
Proof.
  intros self photos post_search http_get callback clock.
  refine (proj1 (proj2 (proj2 (proj2 (sync_album_photos_spec
            (λ _ _ _, Raise "offline") post_search http_get (λ content, content)
            self 63900000000000000 63900000000000000 callback clock 10))))
            2%nat (PhotoItem (Some "https://lh3.example/c") None (Some None) (Some "id-c"))
            _ eq_refl _).
  eexists. split_and!; [reflexivity|reflexivity|discriminate|reflexivity].
Defined.

(** ** Google Photos: the album listing *)

(** [get_album_photos]: its effect on the object is that of
    [get_access_token].  With a non-empty token and a non-empty album id
    the result is decided by one search, made with that token, that album
    id and page size min(max_photos, 100): the [mediaItems] list when the
    answer has status 200 and a JSON body with that key, the empty list
    when the request raises, the status is not 200, the body is not JSON
    or has no [mediaItems].  The search endpoint is consulted at no other
    page size, so a [max_photos] of 100 or more gives what 100 gives.
    Without a token or without an album id the result is empty whatever
    the search endpoint would answer. *)
Theorem get_album_photos_spec
    (post_token : option string → option string → option string → exc token_data)
    (post_search : string → string → Z → exc (Z * exc (option (list photo_item))))
    (self : sync) (now now' : Z) (max_photos : Z) :
  (100 ≤ max_photos →
     get_album_photos post_token post_search self now now' max_photos
     = get_album_photos post_token post_search self now now' 100)
  ∧ (truthy (album_id self) = false →
       ∀ post_search',
         (get_album_photos post_token post_search' self now now' max_photos).1 = [])
  ∧ (get_album_photos post_token post_search self now now' max_photos).2
    = (get_access_token post_token self now now').2
  ∧ ((get_album_photos post_token post_search self now now' max_photos).1 ≠ [] →
       ∃ token album,
         (get_access_token post_token self now now').1 = Some token
         ∧ album_id self = Some album
         ∧ (Z.min max_photos 100 ≤ 100)
         ∧ post_search token album (Z.min max_photos 100)
           = Ok (200, Ok (Some (get_album_photos post_token post_search
                                  self now now' max_photos).1)))
  ∧ (∀ token album,
       (get_access_token post_token self now now').1 = Some token → token ≠ "" →
       album_id self = Some album → album ≠ "" →
       let answer := post_search token album (Z.min max_photos 100) in
       let result := (get_album_photos post_token post_search
                        self now now' max_photos).1 in
       (∀ items, answer = Ok (200, Ok (Some items)) → result = items)
       ∧ (answer = Ok (200, Ok None) → result = [])
       ∧ (∀ msg, answer = Ok (200, Raise msg) → result = [])
       ∧ (∀ status body, answer = Ok (status, body) → status ≠ 200 → result = [])
       ∧ (∀ msg, answer = Raise msg → result = []))
  ∧ (truthy (get_access_token post_token self now now').1 = false →
       ∀ post_search',
         (get_album_photos post_token post_search' self now now' max_photos).1 = [])
  ∧ (∀ post_search',
       (∀ token album,
          post_search' token album (Z.min max_photos 100)
          = post_search token album (Z.min max_photos 100)) →
       get_album_photos post_token post_search' self now now' max_photos
       = get_album_photos post_token post_search self now now' max_photos).
Proof.
  assert (album_id (get_access_token post_token self now now').2 = album_id self)
    as Halbum.
  { unfold get_access_token.
    repeat (case_match; try done). }
  unfold get_album_photos. split_and!.
  - intros Hmax. by rewrite !Z.min_r by lia.
  - intros Hnone post_search'.
    destruct (get_access_token post_token self now now') as [token self'].
    simpl in Halbum. rewrite Halbum.
    destruct token as [[|c token]|]; try done.
    by destruct (album_id self) as [[|c' album]|].
  - destruct (get_access_token post_token self now now') as [token self'].
    repeat (case_match; try done).
  - destruct (get_access_token post_token self now now') as [token self'].
    simpl in Halbum. rewrite Halbum. intros Hne.
    destruct token as [[|c token]|]; try done.
    destruct (album_id self) as [[|c' album]|]; try done.
    destruct (post_search _ _ _) as [[status body]|] eqn:Hsearch; try done.
    exists (String c token), (String c' album).
    split_and!; [done|done|lia|].
    repeat (case_match; try done); simplify_eq/=; try done.
    rewrite Hsearch. by destruct a.
  - intros token album Htoken Hne Halb Hane.
    destruct (get_access_token post_token self now now') as [token' self'].
    simpl in Halbum, Htoken. subst token'. rewrite Halbum, Halb.
    destruct token as [|c token]; [done|]. destruct album as [|c' album]; [done|].
    cbv zeta. split_and!.
    + by intros items ->.
    + by intros ->.
    + by intros msg ->.
    + intros status body -> Hstatus.
      repeat (case_match; try done); simplify_eq/=; done.
    + by intros msg ->.
  - intros Hnone post_search'.
    destruct (get_access_token post_token self now now') as [token self'].
    simpl in Hnone. by destruct token as [[|c token]|].
  - intros post_search' Hagree.
    destruct (get_access_token post_token self now now') as [token self'].
    destruct token as [[|c token]|]; try done.
    destruct (album_id self') as [[|c' album]|]; try done.
    by rewrite Hagree.
Qed.

Lemma get_album_photos_spec_witness :
  let self := Sync None None None (Some "album") (Some "ya29.a0") (Some 5) in
  let item := PhotoItem (Some "https://lh3.example/a") (Some "a.jpg") None (Some "id-a") in
  let post_search := λ (token album : string) (page_size : Z),
    if bool_decide (token = "ya29.a0" ∧ album = "album" ∧ page_size = 100)
    then Ok (200, Ok (Some [item; item]))
    else Raise "unexpected search" in
  (get_album_photos (λ _ _ _, Raise "offline") post_search self 0 0 250).1
  = [item; item].
Proof.
  intros self item post_search.
  refine (proj1 (proj1 (proj2 (proj2 (proj2 (proj2
            (get_album_photos_spec (λ _ _ _, Raise "offline") post_search
               self 0 0 250)))))
            "ya29.a0" "album" eq_refl _ eq_refl _) [item; item] eq_refl);
    discriminate.
Defined.

(** ** The text on the wire *)

Lemma substring_append_take t u :
  substring 0 (String.length t) (t +:+ u) = t.
Proof.
  induction t as [|c t IH]; [by destruct u|].
  rewrite append_cons. simpl. by rewrite IH.
Qed.

Lemma substring_append_skip t u n m :
  substring (String.length t + n) m (t +:+ u) = substring n m u.
Proof.
  induction t as [|c t IH]; [done|]. rewrite append_cons. simpl. apply IH.
Qed.

Lemma substring_all t : substring 0 (String.length t) t = t.
Proof. induction t as [|c t IH]; [done|]. simpl. by rewrite IH. Qed.

Lemma substring_take t u m :
  m = String.length t → substring 0 m (t +:+ u) = t.
Proof. intros ->. apply substring_append_take. Qed.

Lemma substring_skip t u a n m :
  a = (String.length t + n)%nat → substring a m (t +:+ u) = substring n m u.
Proof. intros ->. apply substring_append_skip. Qed.

Lemma substring_whole t m : m = String.length t → substring 0 m t = t.
Proof. intros ->. apply substring_all. Qed.

(** Where the tokens and the separators lie in the joined text. *)
Lemma concat_layout (toks : list string) :
  Forall (λ t, String.length t = 4%nat) toks →
  ∀ k,
    (∀ t, toks !! k = Some t → substring (6 * k) 4 (String.concat ", " toks) = t)
    ∧ ((S k < length toks)%nat →
         substring (6 * k + 4) 2 (String.concat ", " toks) = ", ").
Proof.
  induction 1 as [|t toks Ht Hall IH]; intros k.
  { split; [by intros t Hk|simpl; lia]. }
  destruct toks as [|t' toks].
  - split.
    + intros t0 Hk. destruct k as [|k]; [|done]. inversion Hk; subst t0.
      change (String.concat ", " [t]) with t.
      rewrite Nat.mul_0_r. by apply substring_whole.
    + simpl. lia.
  - change (String.concat ", " (t :: t' :: toks))
      with (t +:+ ", " +:+ String.concat ", " (t' :: toks)).
    destruct k as [|k].
    + split.
      * intros t0 Hk. inversion Hk; subst t0.
        rewrite Nat.mul_0_r. by apply substring_take.
      * intros _. rewrite (substring_skip t _ _ 0) by (rewrite Ht; lia).
        by apply substring_take.
    + destruct (IH k) as [Htok Hsep]. split.
      * intros t0 Hk.
        rewrite (substring_skip t _ _ (2 + 6 * k)) by (rewrite Ht; lia).
        rewrite (substring_skip ", " _ _ (6 * k)) by done.
        by apply Htok.
      * intros Hlen.
        rewrite (substring_skip t _ _ (2 + (6 * k + 4))) by (rewrite Ht; lia).
        rewrite (substring_skip ", " _ _ (6 * k + 4)) by done.
        apply Hsep. simpl in *. lia.
Qed.

Lemma pixel_token_wire rgb : pixel_token rgb = wire_token rgb.
Proof.
  unfold wire_token, pixel_token, color_code, color_palette. cbn [dict_get].
  repeat case_decide; simplify_eq; reflexivity.
Qed.

Lemma black_in_palette : Black ∈ palette_keys.
Proof. apply list_elem_of_In. unfold palette_keys, color_palette, Black. simpl. tauto. Qed.

Lemma dither_solid_palette W H p :
  p ∈ palette_keys → apply_floyd_steinberg_dithering (solid W H p) = solid W H p.
Proof.
  intros Hp. apply dither_palette_image. unfold solid. cbn [rows].
  by apply Forall_replicate, Forall_replicate.
Qed.

Lemma get_px_solid W H p y x q :
  get_px (rows (solid W H p)) y x = Some q → q = p.
Proof.
  unfold solid, get_px. cbn [rows]. intros Hq.
  destruct (replicate H (replicate W p) !! y) as [row|] eqn:Hrow; [|done].
  apply lookup_replicate in Hrow as [-> _]. cbn in Hq.
  by apply lookup_replicate in Hq as [-> _].
Qed.

(** C4: whenever [process_image] succeeds, its result is a text of
    exactly 1612798 characters holding exactly 448 * 600 = 268800 tokens:
    token number k occupies the four characters from position 6 k, and
    the two characters after each token but the last are a comma and a
    space.  Every token is [0x] followed by two upper-case hexadecimal
    digits.  The token at number y * 600 + x is the code of the dithered
    pixel in row y, column x (rows top to bottom, left to right within a
    row): [0xFF] White, [0xFC] Yellow, [0xEC] Orange, [0xE0] Red, [0x35]
    Green, [0x2B] Blue, [0x00] Black. *)
Theorem process_image_wire_format
    (decode_image : string → exc image) (resize_rgb : image → exc image)
    (image_data s : string) :
  process_image decode_image resize_rgb image_data = Some s →
  ∃ (im0 im : image) (toks : list string),
    decode_image image_data = Ok im0 ∧ resize_rgb im0 = Ok im
    ∧ s = join ", " toks
    ∧ length toks = (448 * 600)%nat
    ∧ Z.of_nat (length toks) = 268800
    ∧ Forall is_token toks
    ∧ (∀ y x, (y < 448)%nat → (x < 600)%nat →
         ∃ rgb, get_px (rows (apply_floyd_steinberg_dithering im)) y x = Some rgb
                ∧ toks !! (y * 600 + x)%nat
                  = Some ("0x" +:+ format_02X (dict_get color_palette rgb 0xFF))
                ∧ toks !! (y * 600 + x)%nat = Some (wire_token rgb))
    ∧ Z.of_nat (String.length s) = 1612798
    ∧ (∀ k t, toks !! k = Some t → substring (6 * k) 4 s = t)
    ∧ (∀ k, (S k < length toks)%nat → substring (6 * k + 4) 2 s = ", ").
Proof.
  intros Hs.
  apply process_image_Some in Hs as (im0 & im & toks & Hdec & Hres & Henc & ->).
  apply encode_pixels_spec in Henc as [Hlen Htoks].
  assert (∀ i t, toks !! i = Some t → ∃ rgb, t = pixel_token rgb) as Hpix.
  { intros i t Hi.
    assert (i < 448 * 600)%nat as Hlt
      by (rewrite <- Hlen; eapply lookup_lt_Some; exact Hi).
    assert (i = (i `div` 600) * 600 + i `mod` 600)%nat as Hdiv
      by (rewrite Nat.mul_comm; apply Nat.div_mod_eq).
    destruct (Htoks (i `div` 600)%nat (i `mod` 600)%nat) as (rgb & _ & Ht).
    + apply Nat.Div0.div_lt_upper_bound. rewrite Nat.mul_comm. exact Hlt.
    + apply Nat.mod_upper_bound. discriminate.
    + rewrite <- Hdiv, Hi in Ht. inversion Ht. by exists rgb. }
  assert (Forall (λ t, String.length t = 4%nat) toks) as Hfour.
  { apply Forall_lookup. intros i t Hi. destruct (Hpix i t Hi) as [rgb ->].
    apply pixel_token_length. }
  assert (toks ≠ []) as Hne.
  { destruct (Htoks 0%nat 0%nat) as (rgb & _ & Ht);
      [apply Nat.lt_0_succ|apply Nat.lt_0_succ|].
    intros ->. discriminate Ht. }
  exists im0, im, toks.
  split_and!; [exact Hdec|exact Hres|reflexivity|exact Hlen|..].
  - rewrite Hlen, Nat2Z.inj_mul. reflexivity.
  - apply Forall_lookup. intros i t Hi. destruct (Hpix i t Hi) as [rgb ->].
    apply pixel_token_is_token.
  - intros y x Hy Hx. destruct (Htoks y x Hy Hx) as (rgb & Hpx & Ht).
    exists rgb. split_and!; [exact Hpx|exact Ht|].
    rewrite Ht. f_equal. apply pixel_token_wire.
  - pose proof (length_concat_tokens toks Hfour Hne) as Hchars.
    unfold join. apply (f_equal Z.of_nat) in Hchars.
    rewrite Nat2Z.inj_add, Nat2Z.inj_mul, Hlen, Nat2Z.inj_mul in Hchars.
    change (Z.of_nat 2) with 2 in Hchars. change (Z.of_nat 6) with 6 in Hchars.
    change (Z.of_nat 448) with 448 in Hchars.
    change (Z.of_nat 600) with 600 in Hchars. lia.
  - intros k t Hk. unfold join. by apply (concat_layout toks Hfour k).
  - intros k Hk. unfold join. by apply (concat_layout toks Hfour k).
Qed.

Lemma process_image_wire_format_witness :
  ∃ s, process_image (λ _, Ok (solid 600 448 Black)) Ok "" = Some s
       ∧ Z.of_nat (String.length s) = 1612798
       ∧ substring 0 4 s = "0x00"
       ∧ substring 4 2 s = ", "
       ∧ ∃ toks, s = join ", " toks ∧ Z.of_nat (length toks) = 268800
                 ∧ Forall is_token toks.
Proof.
  destruct (process_image_succeeds (λ _, Ok (solid 600 448 Black)) Ok ""
              (solid 600 448 Black) (solid 600 448 Black)
              eq_refl eq_refl (wf_solid _ _ _) eq_refl eq_refl) as [s Hs].
  exists s. split; [exact Hs|].
  destruct (process_image_wire_format _ _ _ _ Hs)
    as (im0 & im & toks & Hdec & Hres & Hjoin & Hlen & HlenZ & Htok & Hpix
        & Hchars & Hat & Hsep).
  injection Hdec as <-. injection Hres as <-.
  destruct (Hpix 0%nat 0%nat) as (rgb & Hpx & _ & Hfirst);
    [apply Nat.lt_0_succ|apply Nat.lt_0_succ|].
  rewrite (dither_solid_palette 600 448 Black black_in_palette) in Hpx.
  apply get_px_solid in Hpx. rewrite Hpx in Hfirst.
  split; [exact Hchars|]. split; [exact (Hat 0%nat _ Hfirst)|].
  split.
  - apply (Hsep 0%nat). rewrite Hlen. apply Nat.ltb_lt. vm_compute. reflexivity.
  - exists toks. split; [exact Hjoin|]. split; [exact HlenZ|exact Htok].
Defined.
